(** * node-multispinner: the [Multispinner] class of index.js

    A shallow embedding of the class: its constructor, the animation loop
    armed by [setInterval], and the completion methods.  The JavaScript
    run time is modelled as far as the class uses it: plain objects with
    their property enumeration order, interval timers, and the calls that
    reach the log-update collaborators. *)

From Stdlib Require Import List String Ascii ZArith NArith Bool Lia Arith.
Import ListNotations.

Local Open Scope string_scope.
Local Open Scope list_scope.

(** ** JavaScript values and plain objects *)

(** Property creation order of a plain object: a new key goes to the end,
    assigning an existing key keeps its place. *)
Module JsObject.

Definition t (A : Type) : Type := list (string * A).

Fixpoint get {A} (k : string) (o : t A) : option A :=
  match o with
  | [] => None
  | (k', v) :: o' => if String.eqb k k' then Some v else get k o'
  end.

Fixpoint set {A} (k : string) (v : A) (o : t A) : t A :=
  match o with
  | [] => [(k, v)]
  | (k', v') :: o' =>
      if String.eqb k k' then (k', v) :: o' else (k', v') :: set k v o'
  end.

Definition is_digit (c : ascii) : bool :=
  let n := nat_of_ascii c in (48 <=? n)%nat && (n <=? 57)%nat.

Definition digit_value (c : ascii) : N := N.of_nat (nat_of_ascii c - 48).

Fixpoint digits_value (acc : N) (s : string) : option N :=
  match s with
  | EmptyString => Some acc
  | String c s' =>
      if is_digit c then digits_value (10 * acc + digit_value c)%N s'
      else None
  end.

(** An array index is a canonical decimal numeral below 2^32 - 1. *)
Definition array_index (s : string) : option N :=
  match s with
  | EmptyString => None
  | String c rest =>
      if Ascii.eqb c "0" && negb (String.eqb rest "") then None
      else match digits_value 0 s with
           | Some n => if (n <? 4294967295)%N then Some n else None
           | None => None
           end
  end.

Fixpoint insert_index (n : N) (k : string) (l : list (N * string))
  : list (N * string) :=
  match l with
  | [] => [(n, k)]
  | (n', k') :: l' =>
      if (n <=? n')%N then (n, k) :: l else (n', k') :: insert_index n k l'
  end.

Fixpoint index_keys (ks : list string) : list (N * string) :=
  match ks with
  | [] => []
  | k :: ks' =>
      match array_index k with
      | Some n => insert_index n k (index_keys ks')
      | None => index_keys ks'
      end
  end.

Definition is_index (k : string) : bool :=
  match array_index k with Some _ => true | None => false end.

(** [Object.keys]: array-index keys in ascending numeric order, then the
    other keys in creation order. *)
Definition own_keys (ks : list string) : list string :=
  map snd (index_keys ks) ++ filter (fun k => negb (is_index k)) ks.

Definition keys {A} (o : t A) : list string := own_keys (map fst o).

(** Names every plain object inherits from [Object.prototype]: reading
    one of them on an object that has no such own property yields the
    inherited object, not [undefined]. *)
Definition inherited (k : string) : bool :=
  existsb (String.eqb k)
    ["constructor"; "hasOwnProperty"; "isPrototypeOf";
     "propertyIsEnumerable"; "toLocaleString"; "toString"; "valueOf";
     "__defineGetter__"; "__defineSetter__"; "__lookupGetter__";
     "__lookupSetter__"; "__proto__"].

End JsObject.

#[local] Set Warnings "-register-all".

(** The values the constructor can be handed.  Arrays hold strings (spinner
    names, animation frames); numbers are the integers. *)
Inductive value : Type :=
| VUndefined
| VNull
| VBoolean (b : bool)
| VNumber (n : Z)
| VString (s : string)
| VFunction
| VArray (xs : list string)
| VObject (props : list (string * value)).

(** [kindOf] of the kind-of package, on these values. *)
Definition kindOf (v : value) : string :=
  match v with
  | VUndefined => "undefined"
  | VNull => "null"
  | VBoolean _ => "boolean"
  | VNumber _ => "number"
  | VString _ => "string"
  | VFunction => "function"
  | VArray _ => "array"
  | VObject _ => "object"
  end.

(** ToBoolean, as [opts && ...] and [if (this.debug)] apply it. *)
Definition truthy (v : value) : bool :=
  match v with
  | VUndefined | VNull => false
  | VBoolean b => b
  | VNumber n => negb (n =? 0)%Z
  | VString s => negb (String.eqb s "")
  | VFunction | VArray _ | VObject _ => true
  end.

(** JavaScript numbers as far as the frame cursor needs them. *)
Inductive number : Type :=
| Num (z : Z)
| NaN.

Definition js_incr (x : number) : number :=
  match x with Num z => Num (z + 1) | NaN => NaN end.

(** [a % b]: the sign follows the dividend; a zero divisor gives NaN. *)
Definition js_rem (a : number) (b : Z) : number :=
  match a with
  | Num z => if (b =? 0)%Z then NaN else Num (Z.rem z b)
  | NaN => NaN
  end.

(** [xs[i]]: [undefined] out of range. *)
Definition js_index {A} (xs : list A) (i : number) : option A :=
  match i with
  | Num z => if (z <? 0)%Z then None else nth_error xs (Z.to_nat z)
  | NaN => None
  end.

(** A template literal prints [undefined] as the word. *)
Definition template (x : option string) : string :=
  match x with Some s => s | None => "undefined" end.

(** [Array.prototype.join]: [undefined] and [null] elements print empty. *)
Fixpoint join (sep : string) (xs : list (option string)) : string :=
  match xs with
  | [] => ""
  | [x] => match x with Some s => s | None => "" end
  | x :: rest =>
      (match x with Some s => s | None => "" end) ++ sep ++ join sep rest
  end.

(** ** The state table, lib/states *)

(** Modelled from the spec: lib/states is not under src/.  The entry state
    is one of Incomplete, Success, Error; index.js reads the table's
    properties [incomplete], [success] and [error] and tests a state value
    with [states.hasOwnProperty], so each value is the name of its own
    key. *)
Module states.
Definition incomplete : string := "incomplete".
Definition success : string := "success".
Definition error : string := "error".
Definition table : JsObject.t string :=
  [("incomplete", incomplete); ("success", success); ("error", error)].
Definition hasOwnProperty (k : string) : bool :=
  match JsObject.get k table with Some _ => true | None => false end.
End states.

(** ** The instance *)

(** One entry of [this.spinners]. *)
Record spinner : Type := mkSpinner {
  state : string;
  current : option string;
  text : string
}.

(** The two log-update instances an instance can be bound to: the module's
    own, which writes to [process.stdout], and the one the constructor
    creates over a stream that drops every chunk. *)
Inductive renderer : Type :=
| logUpdate
| logUpdateDebug.

(** The properties of [this] that the methods read or write.  [timer] is
    the property the source calls [this.state]: the handle of the last
    interval armed. *)
Record Multispinner : Type := mkMultispinner {
  frames : list string;
  frameCount : Z;
  i : number;
  currentFrame : option string;
  interval : Z;
  indentStr : string;
  clear : bool;
  debug : bool;
  incompleteColor : string;
  successColor : string;
  errorColor : string;
  successSymbol : string;
  errorSymbol : string;
  spinners : JsObject.t spinner;
  timer : option nat;
  update : renderer
}.

Definition set_cursor (n : number) (f : option string) (m : Multispinner)
  : Multispinner :=
  mkMultispinner (frames m) (frameCount m) n f (interval m) (indentStr m)
    (clear m) (debug m) (incompleteColor m) (successColor m) (errorColor m)
    (successSymbol m) (errorSymbol m) (spinners m) (timer m) (update m).

Definition set_spinners (o : JsObject.t spinner) (m : Multispinner)
  : Multispinner :=
  mkMultispinner (frames m) (frameCount m) (i m) (currentFrame m)
    (interval m) (indentStr m) (clear m) (debug m) (incompleteColor m)
    (successColor m) (errorColor m) (successSymbol m) (errorSymbol m)
    o (timer m) (update m).

Definition set_timer (h : option nat) (m : Multispinner) : Multispinner :=
  mkMultispinner (frames m) (frameCount m) (i m) (currentFrame m)
    (interval m) (indentStr m) (clear m) (debug m) (incompleteColor m)
    (successColor m) (errorColor m) (successSymbol m) (errorSymbol m)
    (spinners m) h (update m).

Definition set_update (u : renderer) (m : Multispinner) : Multispinner :=
  mkMultispinner (frames m) (frameCount m) (i m) (currentFrame m)
    (interval m) (indentStr m) (clear m) (debug m) (incompleteColor m)
    (successColor m) (errorColor m) (successSymbol m) (errorSymbol m)
    (spinners m) (timer m) u.

(** ** The run time around the instance *)

(** A call received by a log-update instance. *)
Inductive event : Type :=
| Update (r : renderer) (block : string)
| Clear (r : renderer).

(** The instance, the interval timers that are armed (each one runs the
    callback of [loop]), the next handle [setInterval] hands out, and the
    calls the log-update instances have received, oldest first. *)
Record world : Type := mkWorld {
  self : Multispinner;
  intervals : list nat;
  fresh : nat;
  log : list event
}.

Definition with_self (m : Multispinner) (w : world) : world :=
  mkWorld m (intervals w) (fresh w) (log w).

Definition emit (e : event) (w : world) : world :=
  mkWorld (self w) (intervals w) (fresh w) (log w ++ [e]).

Inductive exn : Type :=
| TypeError
| InvalidState
| SpinnersType
| OptsType.

(** How a call ends: normally, or by throwing with whatever it had done
    before the throw. *)
Inductive completion (A : Type) : Type :=
| Normal (a : A)
| Throw (e : exn) (a : A).
Arguments Normal {A} a.
Arguments Throw {A} e a.

Definition after {A} (c : completion A) : A :=
  match c with Normal a => a | Throw _ a => a end.

Definition thrown {A} (c : completion A) : option exn :=
  match c with Normal _ => None | Throw e _ => Some e end.

(** ** Timers *)

(** [setInterval(callback, this.interval)]: arms a new interval and returns
    its handle.  Every interval of the model runs the callback of [loop]. *)
Definition setInterval (w : world) : nat * world :=
  (fresh w, mkWorld (self w) (intervals w ++ [fresh w]) (S (fresh w)) (log w)).

(** [clearInterval(h)]: disarms the interval with that handle; nothing
    happens for [null], [undefined] or a handle that is not armed. *)
Definition clearInterval (h : option nat) (w : world) : world :=
  match h with
  | Some t =>
      mkWorld (self w) (filter (fun t' => negb (Nat.eqb t' t)) (intervals w))
        (fresh w) (log w)
  | None => w
  end.

(** ** The methods *)

Section Methods.

(** [chalk[color]]: the styling function chalk defines under that name,
    [None] for a name it does not define; and [os.EOL]. *)
Variable chalk : string -> option (string -> string).
Variable EOL : string.

(** [this.currentFrame = this.frames[this.i = ++this.i % this.frameCount]] *)
Definition advance (m : Multispinner) : Multispinner :=
  let n := js_rem (js_incr (i m)) (frameCount m) in
  set_cursor n (js_index (frames m) n) m.

(** The [switch] of the callback: color and symbol for a state; both stay
    [undefined] when no case matches. *)
Definition palette (m : Multispinner) (st : string)
  : option string * option string :=
  if String.eqb st states.incomplete then
    (Some (incompleteColor m), currentFrame m)
  else if String.eqb st states.success then
    (Some (successColor m), Some (successSymbol m))
  else if String.eqb st states.error then
    (Some (errorColor m), Some (errorSymbol m))
  else (None, None).

(** [chalk[color](`${this.indentStr}${symbol} ${text}`)]; [None] when
    [chalk[color]] is not a function and the call throws: the color is
    [undefined], or a name chalk does not define. *)
Definition paint (m : Multispinner) (e : spinner) : option string :=
  match palette m (state e) with
  | (Some color, symbol) =>
      match chalk color with
      | Some style =>
          Some (style (indentStr m ++ template symbol ++ " " ++ text e)%string)
      | None => None
      end
  | (None, _) => None
  end.

Definition repaint (m : Multispinner) (e : spinner) : spinner :=
  mkSpinner (state e) (paint m e) (text e).

(** One round of the first [map] callback, for the key [k]. *)
Definition render (k : string) (m : Multispinner) : completion Multispinner :=
  match JsObject.get k (spinners m) with
  | None => Throw TypeError m
  | Some e =>
      match paint m e with
      | None => Throw TypeError m
      | Some _ =>
          Normal (set_spinners (JsObject.set k (repaint m e) (spinners m)) m)
      end
  end.

Fixpoint render_each (ks : list string) (m : Multispinner)
  : completion Multispinner :=
  match ks with
  | [] => Normal m
  | k :: ks' =>
      match render k m with
      | Normal m' => render_each ks' m'
      | Throw e m' => Throw e m'
      end
  end.

(** The argument of [this.update]: the [current] strings in [Object.keys]
    order, joined by [os.EOL]. *)
Definition block (m : Multispinner) : string :=
  join EOL
    (map (fun k => match JsObject.get k (spinners m) with
                   | Some e => current e
                   | None => None
                   end)
         (JsObject.keys (spinners m))).

(** [allCompleted()].  Every key comes from [Object.keys] of the same
    object, so the lookup finds an entry. *)
Definition allCompleted (m : Multispinner) : bool :=
  forallb (fun k => match JsObject.get k (spinners m) with
                    | Some e => negb (String.eqb (state e) states.incomplete)
                    | None => false
                    end)
          (JsObject.keys (spinners m)).

(** [stop()] *)
Definition stop (w : world) : world := clearInterval (timer (self w)) w.

(** [loop()]: [this.state = setInterval(...)] *)
Definition loop (w : world) : world :=
  let (h, w') := setInterval w in
  with_self (set_timer (Some h) (self w')) w'.

(** [start()] *)
Definition start (w : world) : world := loop w.

(** The rest of the callback once the first [map] has returned with the
    instance [m2]: [this.update] receives the block; when all spinners are
    finished the loop is stopped and, if [this.clear], [logUpdate.clear()]
    is called. *)
Definition ticked (w : world) (m2 : Multispinner) : world :=
  let w1 := emit (Update (update m2) (block m2)) (with_self m2 w) in
  if allCompleted m2
  then
    let w2 := stop w1 in
    if clear m2 then emit (Clear logUpdate) w2 else w2
  else w1.

(** The callback of [loop], run once. *)
Definition tick (w : world) : completion world :=
  let m1 := advance (self w) in
  match render_each (JsObject.keys (spinners m1)) m1 with
  | Throw e m2 => Throw e (with_self m2 w)
  | Normal m2 => Normal (ticked w m2)
  end.

(** [complete(spinner, state)].  [this.spinners[spinner]] is the own entry,
    or an object inherited from [Object.prototype] (the assignment then
    leaves the registry alone), or [undefined] (the assignment throws). *)
Definition complete (name st : string) (w : world) : completion world :=
  if negb (states.hasOwnProperty st) then Throw InvalidState w
  else
    let w1 := stop w in
    match JsObject.get name (spinners (self w1)) with
    | Some e =>
        let o := JsObject.set name (mkSpinner st (current e) (text e))
                   (spinners (self w1)) in
        Normal (start (with_self (set_spinners o (self w1)) w1))
    | None =>
        if JsObject.inherited name then Normal (start w1)
        else Throw TypeError w1
    end.

(** [success(spinner)] and [error(spinner)] *)
Definition success (name : string) (w : world) : completion world :=
  complete name states.success w.

Definition error (name : string) (w : world) : completion world :=
  complete name states.error w.

(** ** Runs *)

(** What can happen to an instance: a method is called, or an armed
    interval fires. *)
Inductive call : Type :=
| CallStart
| CallStop
| CallSuccess (name : string)
| CallError (name : string)
| Fire (t : nat).

(** The world after a call, whether it returned or threw; [None] when the
    interval that should fire is not armed. *)
Definition exec (c : call) (w : world) : option world :=
  match c with
  | CallStart => Some (start w)
  | CallStop => Some (stop w)
  | CallSuccess name => Some (after (success name w))
  | CallError name => Some (after (error name w))
  | Fire t =>
      if existsb (Nat.eqb t) (intervals w) then Some (after (tick w))
      else None
  end.

(** Runs in which [start()] is only called while no interval is armed. *)
Definition permitted (c : call) (w : world) : bool :=
  match c with
  | CallStart => match intervals w with [] => true | _ => false end
  | _ => true
  end.

Inductive reaches (w0 : world) : world -> Prop :=
| reaches_here : reaches w0 w0
| reaches_step (w w' : world) (c : call) :
    reaches w0 w -> permitted c w = true -> exec c w = Some w' ->
    reaches w0 w'.

(** Runs of the timers alone: no method is called from outside. *)
Inductive idles (w0 : world) : world -> Prop :=
| idles_here : idles w0 w0
| idles_fire (w w' : world) (t : nat) :
    idles w0 w -> exec (Fire t) w = Some w' -> idles w0 w'.

(** [n] firings of the interval [t] in a row. *)
Fixpoint fires (n : nat) (t : nat) (w : world) : option world :=
  match n with
  | O => Some w
  | S n' =>
      match exec (Fire t) w with
      | Some w' => fires n' t w'
      | None => None
      end
  end.

(** At most one interval is armed, and it is the one [this.state] holds. *)
Definition single_timer (w : world) : Prop :=
  intervals w = [] \/ exists h, intervals w = [h] /\ timer (self w) = Some h.

(** Every entry is in one of the three states of the table. *)
Definition known_states (m : Multispinner) : bool :=
  forallb (fun kv => states.hasOwnProperty (state (snd kv))) (spinners m).

(** chalk defines the three configured colors. *)
Definition styled (m : Multispinner) : bool :=
  match chalk (incompleteColor m), chalk (successColor m),
        chalk (errorColor m) with
  | Some _, Some _, Some _ => true
  | _, _, _ => false
  end.

End Methods.

(** ** The constructor *)

(** The allow-list and type check of an option: the configuration
    properties the methods read, each with a value of its type. *)
Definition option_type (prop : string) (v : value) : bool :=
  match v with
  | VArray _ => String.eqb prop "frames"
  | VNumber _ => String.eqb prop "interval"
  | VBoolean _ => String.eqb prop "clear" || String.eqb prop "debug"
  | VString _ =>
      existsb (String.eqb prop)
        ["indentStr"; "incompleteColor"; "successColor"; "errorColor";
         "successSymbol"; "errorSymbol"]
  | _ => false
  end.

(** Modelled from the spec: lib/validOpts is not under src/.  It answers
    by a boolean, and the constructor copies all keys or none: a supplied
    configuration is valid when it is a key-value mapping each of whose
    keys passes the allow-list and type check.  A configuration with a key
    that is not recognized or carries a value of the wrong type does not
    fail the construction; none of its keys is copied. *)
Definition validOpts (opts : value) : bool :=
  match opts with
  | VObject ps =>
      forallb (fun prop => match JsObject.get prop ps with
                           | Some v => option_type prop v
                           | None => false
                           end)
        (JsObject.keys ps)
  | _ => false
  end.

(** [this[prop] = opts[prop]], run for every key of a configuration that
    [validOpts] accepted: each such key names a property of the record and
    carries a value of its type (see [assign_copies]). *)
Definition assign (prop : string) (v : option value) (m : Multispinner)
  : Multispinner :=
  let mk fr iv ind cl db ic sc ec ss es :=
    mkMultispinner fr (frameCount m) (i m) (currentFrame m) iv ind cl db
      ic sc ec ss es (spinners m) (timer m) (update m) in
  let keep := mk (frames m) (interval m) (indentStr m) (clear m) (debug m)
                (incompleteColor m) (successColor m) (errorColor m)
                (successSymbol m) (errorSymbol m) in
  match v with
  | Some (VArray xs) =>
      if String.eqb prop "frames" then
        mk xs (interval m) (indentStr m) (clear m) (debug m)
          (incompleteColor m) (successColor m) (errorColor m)
          (successSymbol m) (errorSymbol m)
      else keep
  | Some (VNumber n) =>
      if String.eqb prop "interval" then
        mk (frames m) n (indentStr m) (clear m) (debug m)
          (incompleteColor m) (successColor m) (errorColor m)
          (successSymbol m) (errorSymbol m)
      else keep
  | Some (VBoolean b) =>
      if String.eqb prop "clear" then
        mk (frames m) (interval m) (indentStr m) b (debug m)
          (incompleteColor m) (successColor m) (errorColor m)
          (successSymbol m) (errorSymbol m)
      else if String.eqb prop "debug" then
        mk (frames m) (interval m) (indentStr m) (clear m) b
          (incompleteColor m) (successColor m) (errorColor m)
          (successSymbol m) (errorSymbol m)
      else keep
  | Some (VString s) =>
      if String.eqb prop "indentStr" then
        mk (frames m) (interval m) s (clear m) (debug m)
          (incompleteColor m) (successColor m) (errorColor m)
          (successSymbol m) (errorSymbol m)
      else if String.eqb prop "incompleteColor" then
        mk (frames m) (interval m) (indentStr m) (clear m) (debug m)
          s (successColor m) (errorColor m)
          (successSymbol m) (errorSymbol m)
      else if String.eqb prop "successColor" then
        mk (frames m) (interval m) (indentStr m) (clear m) (debug m)
          (incompleteColor m) s (errorColor m)
          (successSymbol m) (errorSymbol m)
      else if String.eqb prop "errorColor" then
        mk (frames m) (interval m) (indentStr m) (clear m) (debug m)
          (incompleteColor m) (successColor m) s
          (successSymbol m) (errorSymbol m)
      else if String.eqb prop "successSymbol" then
        mk (frames m) (interval m) (indentStr m) (clear m) (debug m)
          (incompleteColor m) (successColor m) (errorColor m)
          s (errorSymbol m)
      else if String.eqb prop "errorSymbol" then
        mk (frames m) (interval m) (indentStr m) (clear m) (debug m)
          (incompleteColor m) (successColor m) (errorColor m)
          (successSymbol m) s
      else keep
  | _ => keep
  end.

(** [this[prop]], for the configuration properties. *)
Definition property (prop : string) (m : Multispinner) : option value :=
  if String.eqb prop "frames" then Some (VArray (frames m))
  else if String.eqb prop "interval" then Some (VNumber (interval m))
  else if String.eqb prop "clear" then Some (VBoolean (clear m))
  else if String.eqb prop "debug" then Some (VBoolean (debug m))
  else if String.eqb prop "indentStr" then Some (VString (indentStr m))
  else if String.eqb prop "incompleteColor"
       then Some (VString (incompleteColor m))
  else if String.eqb prop "successColor" then Some (VString (successColor m))
  else if String.eqb prop "errorColor" then Some (VString (errorColor m))
  else if String.eqb prop "successSymbol"
       then Some (VString (successSymbol m))
  else if String.eqb prop "errorSymbol" then Some (VString (errorSymbol m))
  else None.

(** Modelled from the spec: lib/createSpinner is not under src/.  Called
    with [this] bound to the instance, it adds one entry in state
    Incomplete under the given name; the label is the one supplied, or the
    name itself when the descriptor is a bare name. *)
Definition createSpinner (name : string) (label : option value)
  (m : Multispinner) : Multispinner :=
  let txt := match label with Some (VString s) => s | _ => name end in
  set_spinners
    (JsObject.set name (mkSpinner states.incomplete None txt) (spinners m)) m.

(** The own properties of a value, as [Object.keys] and [v[k]] see them on
    a checked argument. *)
Definition props_of (v : value) : JsObject.t value :=
  match v with VObject ps => ps | _ => [] end.

Definition elements_of (v : value) : list string :=
  match v with VArray xs => xs | _ => [] end.

Section Constructor.

(** lib/defaultProps, not under src/: the table whose properties the
    constructor clones into [this]. *)
Variable defaultProps : Multispinner.

(** [new Multispinner(spinners, opts)]: the exception thrown, or the
    instance.  The errors of lib/errs are the two configuration errors. *)
Definition construct (spinners opts : value) : exn + Multispinner :=
  let spinnersType := kindOf spinners in
  if negb (String.eqb spinnersType "object")
     && negb (String.eqb spinnersType "array")
  then inl SpinnersType
  else
    let optsType := kindOf opts in
    if truthy opts && negb (String.eqb optsType "object") then inl OptsType
    else
      let m0 := defaultProps in
      let m1 :=
        if validOpts opts then
          fold_left
            (fun m prop => assign prop (JsObject.get prop (props_of opts)) m)
            (JsObject.keys (props_of opts)) m0
        else m0 in
      let m2 :=
        if String.eqb spinnersType "array" then
          fold_left (fun m s => createSpinner s None m)
            (elements_of spinners) m1
        else
          fold_left
            (fun m s => createSpinner s (JsObject.get s (props_of spinners)) m)
            (JsObject.keys (props_of spinners)) m1 in
      inr (set_update (if debug m2 then logUpdateDebug else logUpdate) m2).

(** The run time right after construction: nothing armed, nothing
    written. *)
Definition boot (m : Multispinner) : world := mkWorld m [] 0 [].

End Constructor.

(** ** Sample collaborators and inputs *)

Definition esc : string := String (ascii_of_nat 27) "".

(** The text wrapped in the escape sequences of a color. *)
Definition ansi (color text : string) : string :=
  let code :=
    if String.eqb color "red" then "31"
    else if String.eqb color "green" then "32"
    else if String.eqb color "blue" then "34"
    else "39" in
  esc ++ "[" ++ code ++ "m" ++ text ++ esc ++ "[39m".

(** The chalk of the samples: it defines [red], [green] and [blue]. *)
Definition styles (color : string) : option (string -> string) :=
  if existsb (String.eqb color) ["red"; "green"; "blue"]
  then Some (ansi color) else None.

Definition LF : string := String (ascii_of_nat 10) "".

(** Modelled from the spec: lib/defaultProps is not under src/.  A default
    table with the frame sequence of the spec's scenario, the cursor at
    the first frame, no handle and an empty registry; colors and symbols
    are sample values. *)
Definition defaults : Multispinner :=
  mkMultispinner ["-"; "\"; "|"; "/"] 4 (Num 0) None 80 " " false false
    "blue" "green" "red" "v" "x" [] None logUpdate.

(** The instance of the spec's scenario: tasks [a] and [b], interval 50. *)
Definition two_tasks : Multispinner :=
  mkMultispinner ["-"; "\"; "|"; "/"] 4 (Num 0) None 50 " " false false
    "blue" "green" "red" "v" "x"
    [("a", mkSpinner states.incomplete None "Task A");
     ("b", mkSpinner states.incomplete None "Task B")]
    None logUpdate.

(** An instance built with the debug and clear flags set, one task. *)
Definition quiet : Multispinner :=
  mkMultispinner ["-"; "\"; "|"; "/"] 4 (Num 0) None 80 " " true true
    "blue" "green" "red" "v" "x"
    [("a", mkSpinner states.incomplete None "a")]
    None logUpdateDebug.

(** Both tasks of the scenario completed, the loop restarted by the last
    completion call. *)
Definition both_done : world :=
  after (error "b" (after (success "a" (start (boot two_tasks))))).

(** ** The claims in the spec's words *)

(** The color and the glyph the spec gives an entry on a tick: the frame
    under the advanced cursor while Incomplete, the configured symbol once
    terminal. *)
Definition color_for (m : Multispinner) (st : string) : string :=
  if String.eqb st states.incomplete then incompleteColor m
  else if String.eqb st states.success then successColor m
  else errorColor m.

Definition glyph_for (m : Multispinner) (st : string) : string :=
  if String.eqb st states.incomplete then
    template (js_index (frames m) (js_rem (js_incr (i m)) (frameCount m)))
  else if String.eqb st states.success then successSymbol m
  else errorSymbol m.

(** The line is the text styled by the color, which chalk defines. *)
Definition drawn_as (chalk : string -> option (string -> string))
  (color text : string) (line : option string) : Prop :=
  exists style, chalk color = Some style /\ line = Some (style text).

Definition current_at (k : string) (m : Multispinner) : option string :=
  match JsObject.get k (spinners m) with
  | Some e => current e
  | None => None
  end.

(** The argument of [this.update] as the spec words it: the entries'
    lines in the key order of the registry, joined by the line
    separator. *)
Definition joined_lines (EOL : string) (m : Multispinner) : string :=
  join EOL (map (fun k => current_at k m) (JsObject.keys (spinners m))).

(** What the constructor fixes and no method changes. *)
Definition settings (m : Multispinner) :=
  (frames m, frameCount m, interval m, indentStr m, (clear m, debug m),
   (incompleteColor m, successColor m, errorColor m),
   (successSymbol m, errorSymbol m), update m).

(** A completion call as the spec words it: stop the loop, set the entry's
    state, restart the loop. *)
Definition stop_set_start (name st : string) (e : spinner) (w : world)
  : world :=
  let w1 := stop w in
  let o := JsObject.set name (mkSpinner st (current e) (text e))
             (spinners (self w1)) in
  let w2 := with_self (set_spinners o (self w1)) w1 in
  start w2.


Definition clears (l : list event) : nat :=
  List.length
    (filter (fun e => match e with Clear _ => true | _ => false end) l).

(** The number of blocks handed to [this.update]. *)
Definition updates (l : list event) : nat :=
  List.length
    (filter (fun e => match e with Update _ _ => true | _ => false end) l).

Definition terminal_writes (l : list event) : list event :=
  filter (fun e => match e with
                   | Update logUpdate _ | Clear logUpdate => true
                   | _ => false
                   end) l.

(** ** Runs of any calls *)

(** A sequence of calls, one after the other, with no restriction on when
    [start()] is called; [None] when an interval that is not armed should
    fire. *)
Fixpoint run (chalk : string -> option (string -> string)) (EOL : string)
  (cs : list call) (w : world) : option world :=
  match cs with
  | [] => Some w
  | c :: cs' =>
      match exec chalk EOL c w with
      | Some w' => run chalk EOL cs' w'
      | None => None
      end
  end.

(** An armed interval whose handle [this.state] no longer holds. *)
Definition leaked (h : nat) (w : world) : Prop :=
  In h (intervals w) /\ timer (self w) <> Some h /\ (h < fresh w)%nat.

(** The blocks handed to the log-update instance of [process.stdout]. *)
Definition terminal_blocks (l : list event) : list event :=
  filter (fun e => match e with Update logUpdate _ => true | _ => false end)
    l.

(** The tasks of the scenario, [b] put in a state that is no key of the
    state table. *)
Definition odd_state : Multispinner :=
  set_spinners
    [("a", mkSpinner states.incomplete None "Task A");
     ("b", mkSpinner "paused" None "Task B")] two_tasks.

(** The tasks of the scenario, with two frames under a frame count of
    four and the cursor on the second frame. *)
Definition short_frames : Multispinner :=
  mkMultispinner ["-"; "|"] 4 (Num 1) None 50 " " false false
    "blue" "green" "red" "v" "x"
    [("a", mkSpinner states.incomplete None "Task A");
     ("b", mkSpinner states.incomplete None "Task B")]
    None logUpdate.

(** The tasks of the scenario, the color of Incomplete entries
    configured with a name the sample chalk does not define. *)
Definition uncolored : Multispinner :=
  mkMultispinner ["-"; "\"; "|"; "/"] 4 (Num 0) None 50 " " false false
    "notacolor" "green" "red" "v" "x"
    [("a", mkSpinner states.incomplete None "Task A");
     ("b", mkSpinner states.incomplete None "Task B")]
    None logUpdate.


(** The tasks of the scenario with [clear] set. *)
Definition clearing : Multispinner :=
  mkMultispinner ["-"; "\"; "|"; "/"] 4 (Num 0) None 80 " " true false
    "blue" "green" "red" "v" "x"
    [("a", mkSpinner states.incomplete None "Task A");
     ("b", mkSpinner states.incomplete None "Task B")]
    None logUpdate.

(** That instance with [start()] called twice and both tasks completed. *)
Definition twice_started_clearing : world :=
  after (error "b" (after (success "a" (start (start (boot clearing)))))).

(** The scenario with [start()] called twice, both tasks completed, and
    the interval of the last restart fired once. *)
Definition twice_started_done : world :=
  after (tick styles LF
    (after (error "b"
      (after (success "a" (start (start (boot two_tasks)))))))).

(** * Properties *)

(** ** Plain objects *)

Lemma get_set_same {A} (k : string) (v : A) (o : JsObject.t A) :
  JsObject.get k (JsObject.set k v o) = Some v.
Proof.
  induction o as [|[k' v'] o IH]; simpl.
  - now rewrite String.eqb_refl.
  - destruct (String.eqb k k') eqn:E; simpl; rewrite E; auto.
Qed.

Lemma get_set_other {A} (k k' : string) (v : A) (o : JsObject.t A) :
  k' <> k -> JsObject.get k' (JsObject.set k v o) = JsObject.get k' o.
Proof.
  intros Hne. induction o as [|[k0 v0] o IH]; simpl.
  - apply String.eqb_neq in Hne. now rewrite Hne.
  - destruct (String.eqb k k0) eqn:E; simpl.
    + apply String.eqb_eq in E. subst k0.
      apply String.eqb_neq in Hne. now rewrite Hne.
    + now rewrite IH.
Qed.

Lemma get_set {A} (k k' : string) (v : A) (o : JsObject.t A) :
  JsObject.get k' (JsObject.set k v o)
  = if String.eqb k' k then Some v else JsObject.get k' o.
Proof.
  destruct (String.eqb k' k) eqn:E.
  - apply String.eqb_eq in E. subst. apply get_set_same.
  - apply String.eqb_neq in E. now apply get_set_other.
Qed.

Lemma set_present_keeps_keys {A} (k : string) (v e : A) (o : JsObject.t A) :
  JsObject.get k o = Some e -> map fst (JsObject.set k v o) = map fst o.
Proof.
  induction o as [|[k' v'] o IH]; simpl; [discriminate|].
  destruct (String.eqb k k') eqn:E; simpl; intros H.
  - reflexivity.
  - now rewrite IH.
Qed.

Lemma get_in {A} (k : string) (e : A) (o : JsObject.t A) :
  JsObject.get k o = Some e -> In (k, e) o.
Proof.
  induction o as [|[k' v'] o IH]; simpl; [discriminate|].
  destruct (String.eqb k k') eqn:E; intros H.
  - apply String.eqb_eq in E. inversion H. subst. now left.
  - right. auto.
Qed.

Lemma in_get {A} (k : string) (o : JsObject.t A) :
  In k (map fst o) -> exists e, JsObject.get k o = Some e.
Proof.
  induction o as [|[k' v'] o IH]; simpl; [tauto|].
  intros [H|H].
  - subst. rewrite String.eqb_refl. eauto.
  - destruct (String.eqb k k'); eauto.
Qed.

Lemma get_in_keys {A} (k : string) (e : A) (o : JsObject.t A) :
  JsObject.get k o = Some e -> In k (map fst o).
Proof.
  intros H. apply get_in in H. now apply (in_map fst) in H.
Qed.

Lemma insert_index_in (n n0 : N) (k k0 : string) (l : list (N * string)) :
  In (n, k) (JsObject.insert_index n0 k0 l) <-> (n0, k0) = (n, k) \/ In (n, k) l.
Proof.
  induction l as [|[n' k'] l IH]; simpl.
  - tauto.
  - destruct (n0 <=? n')%N; simpl; rewrite ?IH; tauto.
Qed.

Lemma index_keys_in (k : string) (ks : list string) :
  In k (map snd (JsObject.index_keys ks))
  <-> In k ks /\ JsObject.is_index k = true.
Proof.
  unfold JsObject.is_index. induction ks as [|k0 ks IH]; simpl.
  - tauto.
  - destruct (JsObject.array_index k0) as [n0|] eqn:E0.
    + rewrite in_map_iff. split.
      * intros [[n k'] [Hk Hin]]. simpl in Hk. subst k'.
        apply insert_index_in in Hin. destruct Hin as [Heq|Hin].
        -- inversion Heq. subst. rewrite E0. auto.
        -- assert (In k (map snd (JsObject.index_keys ks)))
             by (apply in_map_iff; exists (n, k); auto).
           apply IH in H. tauto.
      * intros [[Heq|Hin] Hidx].
        -- subst k0. exists (n0, k). split; auto.
           apply insert_index_in. now left.
        -- assert (In k (map snd (JsObject.index_keys ks))) by (apply IH; auto).
           apply in_map_iff in H. destruct H as [[n k'] [Hk H]].
           simpl in Hk. subst k'. exists (n, k). split; auto.
           apply insert_index_in. now right.
    + rewrite IH. split.
      * tauto.
      * intros [[Heq|Hin] Hidx]; [|tauto].
        subst k0. rewrite E0 in Hidx. discriminate.
Qed.

(** [Object.keys] lists exactly the own keys. *)
Lemma own_keys_in (k : string) (ks : list string) :
  In k (JsObject.own_keys ks) <-> In k ks.
Proof.
  unfold JsObject.own_keys. rewrite in_app_iff, index_keys_in, filter_In.
  destruct (JsObject.is_index k); simpl; intuition congruence.
Qed.

Lemma keys_get {A} (k : string) (o : JsObject.t A) :
  In k (JsObject.keys o) -> exists e, JsObject.get k o = Some e.
Proof.
  unfold JsObject.keys. rewrite own_keys_in. apply in_get.
Qed.

Lemma get_keys {A} (k : string) (e : A) (o : JsObject.t A) :
  JsObject.get k o = Some e -> In k (JsObject.keys o).
Proof.
  intros H. unfold JsObject.keys. rewrite own_keys_in.
  eapply get_in_keys; eauto.
Qed.


(** ** One tick *)

Lemma known_state_cases (st : string) :
  states.hasOwnProperty st = true <->
  st = states.incomplete \/ st = states.success \/ st = states.error.
Proof.
  unfold states.hasOwnProperty, states.table. simpl.
  destruct (String.eqb st "incomplete") eqn:E1;
    [apply String.eqb_eq in E1; subst; intuition|].
  destruct (String.eqb st "success") eqn:E2;
    [apply String.eqb_eq in E2; subst; intuition|].
  destruct (String.eqb st "error") eqn:E3;
    [apply String.eqb_eq in E3; subst; intuition|].
  apply String.eqb_neq in E1, E2, E3.
  unfold states.incomplete, states.success, states.error.
  split; [discriminate | intuition congruence].
Qed.

Lemma known_states_get (m : Multispinner) (k : string) (e : spinner) :
  known_states m = true -> JsObject.get k (spinners m) = Some e ->
  states.hasOwnProperty (state e) = true.
Proof.
  unfold known_states. rewrite forallb_forall. intros H Hg.
  apply get_in in Hg. apply (H _ Hg).
Qed.

Section Ticks.

Variable chalk : string -> option (string -> string).
Variable EOL : string.

(** In a known state, with the configured colors defined by chalk, the
    switch finds a case and the call returns: the line is styled by the
    color of the state, the indentation inside the styled text. *)
Lemma paint_known (m : Multispinner) (e : spinner) :
  states.hasOwnProperty (state e) = true ->
  styled chalk m = true ->
  drawn_as chalk (color_for m (state e))
    (indentStr m
     ++ (if String.eqb (state e) states.incomplete
         then template (currentFrame m)
         else if String.eqb (state e) states.success
              then successSymbol m
              else errorSymbol m)
     ++ " " ++ text e)
    (paint chalk m e).
Proof.
  intros H Hs. apply known_state_cases in H.
  unfold styled in Hs. unfold drawn_as, paint, palette, color_for.
  destruct (chalk (incompleteColor m)) as [f1|] eqn:E1; [|discriminate].
  destruct (chalk (successColor m)) as [f2|] eqn:E2; [|discriminate].
  destruct (chalk (errorColor m)) as [f3|] eqn:E3; [|discriminate].
  destruct H as [H|[H|H]]; rewrite H; simpl; rewrite ?E1, ?E2, ?E3; eauto.
Qed.

Lemma paint_known_some (m : Multispinner) (e : spinner) :
  states.hasOwnProperty (state e) = true ->
  styled chalk m = true ->
  exists line, paint chalk m e = Some line.
Proof.
  intros H Hs. destruct (paint_known m e H Hs) as (f & _ & Hp). eauto.
Qed.

Lemma repaint_repaint (m : Multispinner) (o : JsObject.t spinner)
  (e : spinner) :
  repaint chalk (set_spinners o m) (repaint chalk m e) = repaint chalk m e.
Proof. reflexivity. Qed.

(** The first [map] of the callback only writes [current] fields: whether
    it returns or throws, the instance differs in its registry alone, the
    keys stay, and each entry keeps its state and label. *)
Lemma render_each_frame (ks : list string) :
  forall m, exists o,
    after (render_each chalk ks m) = set_spinners o m
    /\ map fst o = map fst (spinners m)
    /\ forall k e, JsObject.get k (spinners m) = Some e ->
         exists e', JsObject.get k o = Some e'
                    /\ state e' = state e /\ text e' = text e.
Proof.
  induction ks as [|k ks IH]; intros m; simpl.
  - exists (spinners m). destruct m; simpl. repeat split; eauto.
  - unfold render.
    destruct (JsObject.get k (spinners m)) as [e|] eqn:Hg;
      [destruct (paint chalk m e) eqn:Hp|];
      try (exists (spinners m); destruct m; simpl; repeat split; eauto; fail).
    destruct (IH (set_spinners
                    (JsObject.set k (repaint chalk m e) (spinners m)) m))
      as (o & Ho & Hk & He).
    exists o. split; [|split].
    + rewrite Ho. reflexivity.
    + rewrite Hk. simpl. eapply set_present_keeps_keys; eauto.
    + intros k' e' Hg'. simpl in He.
      destruct (String.eqb k' k) eqn:E.
      * apply String.eqb_eq in E. subst k'.
        rewrite Hg in Hg'. inversion Hg'. subst e'.
        destruct (He k (repaint chalk m e)) as (e2 & H2 & Hs & Ht).
        { apply get_set_same. }
        exists e2. auto.
      * apply He. rewrite get_set, E. exact Hg'.
Qed.

Lemma in_set {A} (k : string) (v : A) (o : JsObject.t A) (kv : string * A) :
  In kv (JsObject.set k v o) -> snd kv = v \/ In kv o.
Proof.
  induction o as [|[k' v'] o IH]; simpl.
  - intros [H|[]]. subst. now left.
  - destruct (String.eqb k k'); simpl; intros [H|H]; subst; auto.
    destruct (IH H); auto.
Qed.

Lemma known_states_set (m : Multispinner) (k : string) (e : spinner) :
  known_states m = true -> states.hasOwnProperty (state e) = true ->
  known_states (set_spinners (JsObject.set k e (spinners m)) m) = true.
Proof.
  unfold known_states. rewrite !forallb_forall. simpl.
  intros H He kv Hin. apply in_set in Hin. destruct Hin as [Hv|Hin].
  - now rewrite Hv.
  - auto.
Qed.

(** With every entry in a known state the first [map] returns, and each
    entry carries its freshly painted line. *)
Lemma render_each_known (ks : list string) :
  forall m,
    known_states m = true ->
    styled chalk m = true ->
    (forall k, In k ks -> exists e, JsObject.get k (spinners m) = Some e) ->
    exists o,
      render_each chalk ks m = Normal (set_spinners o m)
      /\ map fst o = map fst (spinners m)
      /\ known_states (set_spinners o m) = true
      /\ forall k,
           JsObject.get k o
           = if existsb (String.eqb k) ks
             then option_map (repaint chalk m) (JsObject.get k (spinners m))
             else JsObject.get k (spinners m).
Proof.
  induction ks as [|k ks IH]; intros m Hknown Hstyled Hks; simpl.
  - exists (spinners m). destruct m; simpl. repeat split; auto.
  - destruct (Hks k (or_introl eq_refl)) as (e & Hg).
    unfold render. rewrite Hg.
    pose proof (known_states_get _ _ _ Hknown Hg) as Hst.
    destruct (paint_known_some m e Hst Hstyled) as (line & Hline).
    rewrite Hline.
    set (m1 := set_spinners (JsObject.set k (repaint chalk m e) (spinners m)) m).
    assert (Hknown1 : known_states m1 = true)
      by (apply known_states_set; auto).
    destruct (IH m1 Hknown1 Hstyled) as (o & Hr & Hk & Hko & Hget).
    { intros k' Hin. simpl. rewrite get_set.
      destruct (String.eqb k' k); eauto. apply Hks. now right. }
    exists o. split; [|split; [|split]].
    + rewrite Hr. reflexivity.
    + rewrite Hk. simpl. eapply set_present_keeps_keys; eauto.
    + exact Hko.
    + intros k'. rewrite Hget. simpl. rewrite get_set.
      destruct (String.eqb k' k) eqn:E; simpl.
      * apply String.eqb_eq in E. subst k'. rewrite Hg. simpl.
        destruct (existsb (String.eqb k) ks); reflexivity.
      * destruct (existsb (String.eqb k') ks); [|reflexivity].
        destruct (JsObject.get k' (spinners m)); reflexivity.
Qed.

Lemma existsb_eqb_in (k : string) (ks : list string) :
  existsb (String.eqb k) ks = true <-> In k ks.
Proof.
  rewrite existsb_exists. split.
  - intros (x & Hin & E). apply String.eqb_eq in E. now subst.
  - intros H. exists k. split; auto. apply String.eqb_refl.
Qed.

(** The whole first [map]: every entry repainted, nothing else touched. *)
Lemma render_all (m : Multispinner) :
  known_states m = true ->
  styled chalk m = true ->
  exists o,
    render_each chalk (JsObject.keys (spinners m)) m
    = Normal (set_spinners o m)
    /\ map fst o = map fst (spinners m)
    /\ known_states (set_spinners o m) = true
    /\ forall k,
         JsObject.get k o
         = option_map (repaint chalk m) (JsObject.get k (spinners m)).
Proof.
  intros Hknown Hstyled.
  destruct (render_each_known (JsObject.keys (spinners m)) m Hknown Hstyled)
    as (o & Hr & Hk & Hko & Hget).
  { intros k. apply keys_get. }
  exists o. repeat split; auto.
  intros k. rewrite Hget.
  destruct (existsb (String.eqb k) (JsObject.keys (spinners m))) eqn:E; auto.
  destruct (JsObject.get k (spinners m)) as [e|] eqn:Hg; auto.
  apply get_keys in Hg. apply existsb_eqb_in in Hg. congruence.
Qed.

Lemma forallb_agree {A} (f g : A -> bool) (l : list A) :
  (forall x, In x l -> f x = g x) -> forallb f l = forallb g l.
Proof.
  induction l as [|x l IH]; simpl; intros H; auto.
  rewrite (H x (or_introl eq_refl)), IH; auto.
Qed.

(** [allCompleted] looks at the keys and the states only. *)
Lemma allCompleted_states (m m' : Multispinner) :
  map fst (spinners m') = map fst (spinners m) ->
  (forall k, option_map state (JsObject.get k (spinners m'))
             = option_map state (JsObject.get k (spinners m))) ->
  allCompleted m' = allCompleted m.
Proof.
  intros Hk Hs. unfold allCompleted, JsObject.keys. rewrite Hk.
  apply forallb_agree. intros k _. specialize (Hs k).
  destruct (JsObject.get k (spinners m')), (JsObject.get k (spinners m));
    simpl in Hs; congruence.
Qed.

(** With every entry in a known state the callback returns: the cursor is
    advanced, every entry repainted, the block handed to [this.update]. *)
Lemma tick_known (w : world) :
  known_states (self w) = true ->
  styled chalk (self w) = true ->
  exists o,
    tick chalk EOL w
    = Normal (ticked EOL w (set_spinners o (advance (self w))))
    /\ map fst o = map fst (spinners (self w))
    /\ known_states (set_spinners o (advance (self w))) = true
    /\ allCompleted (set_spinners o (advance (self w)))
       = allCompleted (self w)
    /\ forall k,
         JsObject.get k o
         = option_map (repaint chalk (advance (self w)))
             (JsObject.get k (spinners (self w))).
Proof.
  intros Hknown Hstyled.
  destruct (render_all (advance (self w))) as (o & Hr & Hk & Hko & Hget).
  { exact Hknown. }
  { exact Hstyled. }
  exists o. split.
  { unfold tick. rewrite Hr. reflexivity. }
  split; [exact Hk|]. split; [exact Hko|]. split; [|exact Hget].
  apply allCompleted_states; simpl; auto.
  intros k. rewrite Hget. simpl.
  destruct (JsObject.get k (spinners (self w))); reflexivity.
Qed.

(** Whether it returns or throws, the callback leaves the handle, the
    handle supply and the configuration alone, and the armed intervals
    either stay or lose the one the handle names. *)
Lemma tick_timers (w : world) :
  timer (self (after (tick chalk EOL w))) = timer (self w)
  /\ (intervals (after (tick chalk EOL w)) = intervals w
      \/ intervals (after (tick chalk EOL w)) = intervals (stop w)).
Proof.
  unfold tick.
  destruct (render_each_frame (JsObject.keys (spinners (advance (self w))))
              (advance (self w))) as (o & Ho & _).
  destruct (render_each chalk _ (advance (self w))) as [m2|e m2];
    simpl in Ho; subst m2; simpl.
  - unfold ticked, stop, clearInterval. simpl.
    destruct (allCompleted _); [|simpl; auto].
    destruct (clear (self w)); destruct (timer (self w)) eqn:Et; simpl; auto.
  - auto.
Qed.

End Ticks.

(** ** Timers and completion calls *)

Example two_tasks_constructed :
  construct defaults
    (VObject [("a", VString "Task A"); ("b", VString "Task B")])
    (VObject [("interval", VNumber 50)])
  = inr two_tasks.
Proof. reflexivity. Qed.

Lemma stop_self (w : world) : self (stop w) = self w.
Proof. unfold stop, clearInterval. now destruct (timer (self w)). Qed.

Lemma stop_disarms (w : world) : single_timer w -> intervals (stop w) = [].
Proof.
  unfold single_timer, stop, clearInterval.
  intros [H|(h & H & Ht)].
  - destruct (timer (self w)); simpl; rewrite H; reflexivity.
  - rewrite Ht. simpl. rewrite H. simpl. now rewrite Nat.eqb_refl.
Qed.

Lemma start_arms (w : world) :
  intervals (start w) = intervals w ++ [fresh w]
  /\ timer (self (start w)) = Some (fresh w).
Proof. split; reflexivity. Qed.

Lemma start_single (w : world) :
  intervals w = [] -> single_timer (start w).
Proof.
  intros H. right. exists (fresh w).
  destruct (start_arms w) as [Hi Ht]. rewrite Hi, Ht, H. auto.
Qed.

Lemma stop_single (w : world) : single_timer w -> single_timer (stop w).
Proof. intros H. left. now apply stop_disarms. Qed.

(** A completion call that returns has disarmed the old interval and armed
    exactly one new one. *)
Lemma complete_rearms (name st : string) (w w' : world) :
  single_timer w -> complete name st w = Normal w' ->
  intervals w' = [fresh w] /\ timer (self w') = Some (fresh w).
Proof.
  intros Hs. unfold complete.
  destruct (negb (states.hasOwnProperty st)); [discriminate|].
  pose proof (stop_disarms w Hs) as Hd.
  assert (Hf : fresh (stop w) = fresh w).
  { unfold stop, clearInterval. now destruct (timer (self w)). }
  destruct (JsObject.get name (spinners (self (stop w)))) as [e|].
  - intros H. inversion H. subst w'. simpl. rewrite Hd, Hf. auto.
  - destruct (JsObject.inherited name); [|discriminate].
    intros H. inversion H. subst w'. simpl. rewrite Hd, Hf. auto.
Qed.

Lemma complete_single (name st : string) (w : world) :
  single_timer w -> single_timer (after (complete name st w)).
Proof.
  intros Hs. destruct (complete name st w) as [w'|e w'] eqn:E; simpl.
  - destruct (complete_rearms name st w w' Hs E) as [Hi Ht].
    right. exists (fresh w). auto.
  - unfold complete in E.
    destruct (negb (states.hasOwnProperty st)).
    + inversion E. now subst.
    + destruct (JsObject.get name (spinners (self (stop w)))); [discriminate|].
      destruct (JsObject.inherited name); [discriminate|].
      inversion E. now apply stop_single.
Qed.

Section Runs.

Variable chalk : string -> option (string -> string).
Variable EOL : string.

Lemma tick_single (w : world) :
  single_timer w -> single_timer (after (tick chalk EOL w)).
Proof.
  intros Hs. destruct (tick_timers chalk EOL w) as [Ht [Hi|Hi]].
  - unfold single_timer in *. rewrite Hi, Ht. exact Hs.
  - left. rewrite Hi. now apply stop_disarms.
Qed.

Lemma exec_single (c : call) (w w' : world) :
  single_timer w -> permitted c w = true -> exec chalk EOL c w = Some w' ->
  single_timer w'.
Proof.
  intros Hs Hp He. destruct c; simpl in *.
  - inversion He. subst. apply start_single.
    destruct (intervals w); [reflexivity|discriminate].
  - inversion He. subst. now apply stop_single.
  - inversion He. subst. now apply complete_single.
  - inversion He. subst. now apply complete_single.
  - destruct (existsb (Nat.eqb t) (intervals w)); [|discriminate].
    inversion He. subst. now apply tick_single.
Qed.

(** X17.  In every run in which [start()] is only called while no
    interval is armed, at most one interval is armed at any time, the one
    whose handle [this.state] holds; and whenever a completion call
    restarts the loop, the armed interval is cleared before the new one is
    armed, which is then the only one. *)
Theorem one_timer_unless_started_twice (w0 w : world) :
  single_timer w0 -> reaches chalk EOL w0 w ->
  single_timer w
  /\ (List.length (intervals w) <= 1)%nat
  /\ forall name st w',
       complete name st w = Normal w' ->
       intervals (stop w) = []
       /\ intervals w' = [fresh w] /\ timer (self w') = Some (fresh w).
Proof.
  intros H0 Hr.
  assert (Hs : single_timer w).
  { induction Hr as [|w w' c Hr IH Hp He]; auto.
    eapply exec_single; eauto. }
  split; [exact Hs|]. split.
  - destruct Hs as [H|(h & H & _)]; rewrite H; simpl; lia.
  - intros name st w' Hc. split.
    + now apply stop_disarms.
    + eapply complete_rearms; eauto.
Qed.

End Runs.

Lemma one_timer_unless_started_twice_witness :
  single_timer (start (boot two_tasks))
  /\ (List.length (intervals (start (boot two_tasks))) <= 1)%nat
  /\ forall name st w',
       complete name st (start (boot two_tasks)) = Normal w' ->
       intervals (stop (start (boot two_tasks))) = []
       /\ intervals w' = [fresh (start (boot two_tasks))]
       /\ timer (self w') = Some (fresh (start (boot two_tasks))).
Proof.
  apply (one_timer_unless_started_twice styles LF (boot two_tasks)).
  - left. reflexivity.
  - eapply reaches_step with (c := CallStart);
      [apply reaches_here | reflexivity | reflexivity].
Defined.

(** C1 is broken by the code.  [start()] on a running loop arms a second
    interval and tears none down: two intervals are armed at once, and the
    handle of the first is overwritten in [this.state], where
    [complete()] stops the loop before it starts it again. *)
Theorem start_while_running_arms_second :
  intervals (start (start (boot two_tasks))) = [0; 1]%nat
  /\ timer (self (start (start (boot two_tasks)))) = Some 1%nat
  /\ ~ single_timer (start (start (boot two_tasks))).
Proof.
  split; [reflexivity|]. split; [reflexivity|].
  intros [H|(h & H & _)]; discriminate H.
Qed.

(** The three steps of a completion call on a name of the registry. *)
Lemma complete_present (name st : string) (e : spinner) (w : world) :
  JsObject.get name (spinners (self w)) = Some e ->
  states.hasOwnProperty st = true ->
  complete name st w
  = Normal
      (start
         (with_self
            (set_spinners
               (JsObject.set name (mkSpinner st (current e) (text e))
                  (spinners (self w)))
               (self w))
            (stop w))).
Proof.
  intros Hg Hst. unfold complete. rewrite Hst. simpl.
  rewrite stop_self, Hg. reflexivity.
Qed.

Lemma complete_entry (name st : string) (e : spinner) (w : world) :
  JsObject.get name (spinners (self w)) = Some e ->
  states.hasOwnProperty st = true ->
  JsObject.get name (spinners (self (after (complete name st w))))
  = Some (mkSpinner st (current e) (text e)).
Proof.
  intros Hg Hst. rewrite (complete_present name st e w Hg Hst). simpl.
  apply get_set_same.
Qed.

(** C2 (amended).  [complete] throws its invalid-state error exactly for a
    state value that is no key of the state table, that is, outside
    Incomplete, Success and Error; with one of these three and a name of
    the registry the call does not throw. *)
Theorem complete_rejects_only_unknown_states (name st : string) (w : world) :
  (thrown (complete name st w) = Some InvalidState
   <-> st <> states.incomplete /\ st <> states.success /\ st <> states.error)
  /\ forall e,
       JsObject.get name (spinners (self w)) = Some e ->
       st = states.incomplete \/ st = states.success \/ st = states.error ->
       thrown (complete name st w) = None.
Proof.
  split.
  - pose proof (known_state_cases st) as Hk.
    unfold complete.
    destruct (states.hasOwnProperty st) eqn:Hst; simpl.
    + split.
      * destruct (JsObject.get name (spinners (self (stop w))));
          [discriminate|].
        destruct (JsObject.inherited name); discriminate.
      * intros (H1 & H2 & H3).
        destruct (proj1 Hk eq_refl) as [H|[H|H]]; contradiction.
    + split; auto. intros _.
      repeat split; intros H; subst st;
        assert (true = false) by (rewrite <- Hst; reflexivity);
        discriminate.
  - intros e Hg Hst. apply known_state_cases in Hst.
    now rewrite (complete_present name st e w Hg Hst).
Qed.

Lemma complete_rejects_only_unknown_states_witness :
  thrown (complete "a" states.error (start (boot two_tasks))) = None.
Proof.
  apply (proj2 (complete_rejects_only_unknown_states
                  "a" states.error (start (boot two_tasks)))
           (mkSpinner states.incomplete None "Task A")).
  - reflexivity.
  - right. right. reflexivity.
Defined.

(** C2, as stated, fails twice: the state value Incomplete is outside
    Success and Error and yet accepted, and with Success a name that the
    registry lacks makes the call throw (a TypeError). *)
Lemma complete_accepts_incomplete_and_throws_on_absent :
  thrown (complete "a" states.incomplete (start (boot two_tasks))) = None
  /\ states.incomplete <> states.success
  /\ states.incomplete <> states.error
  /\ thrown (complete "c" states.success (start (boot two_tasks)))
     = Some TypeError.
Proof. repeat split; try reflexivity; discriminate. Qed.

(** C6.  On a name of the registry, [success] then [error] leaves the
    entry in state Error, and a completion call on an entry that is
    already terminal returns without throwing, having reassigned the state
    field and nothing else of the entry. *)
Theorem completion_last_write_wins (name : string) (e : spinner) (w : world) :
  JsObject.get name (spinners (self w)) = Some e ->
  (exists w1 w2 e2,
      success name w = Normal w1
      /\ error name w1 = Normal w2
      /\ JsObject.get name (spinners (self w2)) = Some e2
      /\ state e2 = states.error)
  /\ forall st,
       state e = states.success \/ state e = states.error ->
       st = states.success \/ st = states.error ->
       exists w',
         complete name st w = Normal w'
         /\ JsObject.get name (spinners (self w'))
            = Some (mkSpinner st (current e) (text e)).
Proof.
  intros Hg. split.
  - assert (H1 : JsObject.get name (spinners (self (after (success name w))))
                 = Some (mkSpinner states.success (current e) (text e)))
      by (apply complete_entry; auto).
    unfold success in *.
    rewrite (complete_present name states.success e w Hg eq_refl) in *.
    simpl after in H1.
    eexists. eexists. exists (mkSpinner states.error (current e) (text e)).
    split; [reflexivity|].
    unfold error. split.
    + apply (complete_present name states.error _ _ H1). reflexivity.
    + split; [|reflexivity]. simpl. apply get_set_same.
  - intros st _ Hst.
    assert (Hk : states.hasOwnProperty st = true)
      by (apply known_state_cases; tauto).
    eexists. split.
    + apply (complete_present name st e w Hg Hk).
    + simpl. apply get_set_same.
Qed.

Lemma completion_last_write_wins_witness :
  exists w1 w2 e2,
    success "a" (start (boot two_tasks)) = Normal w1
    /\ error "a" w1 = Normal w2
    /\ JsObject.get "a" (spinners (self w2)) = Some e2
    /\ state e2 = states.error.
Proof.
  apply (proj1 (completion_last_write_wins "a"
                  (mkSpinner states.incomplete None "Task A")
                  (start (boot two_tasks)) eq_refl)).
Defined.

(** ** What a tick draws *)

Lemma stop_fresh (w : world) : fresh (stop w) = fresh w.
Proof. unfold stop, clearInterval. now destruct (timer (self w)). Qed.

Lemma stop_log (w : world) : log (stop w) = log w.
Proof. unfold stop, clearInterval. now destruct (timer (self w)). Qed.


Section Drawing.

Variable chalk : string -> option (string -> string).
Variable EOL : string.

Lemma ticked_self (w : world) (m2 : Multispinner) :
  self (ticked EOL w m2) = m2.
Proof.
  unfold ticked. destruct (allCompleted m2); [|reflexivity].
  destruct (clear m2); simpl; now rewrite stop_self.
Qed.

Lemma ticked_log (w : world) (m2 : Multispinner) :
  log (ticked EOL w m2)
  = log w ++ Update (update m2) (block EOL m2)
      :: (if allCompleted m2 && clear m2 then [Clear logUpdate] else []).
Proof.
  unfold ticked. destruct (allCompleted m2); [|reflexivity].
  destruct (clear m2); simpl; rewrite stop_log; simpl;
    now rewrite <- ?app_assoc.
Qed.

Lemma ticked_intervals (w : world) (m2 : Multispinner) :
  timer m2 = timer (self w) ->
  intervals (ticked EOL w m2)
  = if allCompleted m2 then intervals (stop w) else intervals w.
Proof.
  intros Ht. unfold ticked. destruct (allCompleted m2); [|reflexivity].
  unfold stop, clearInterval. simpl. rewrite Ht.
  destruct (clear m2), (timer (self w)); reflexivity.
Qed.

Lemma ticked_fresh (w : world) (m2 : Multispinner) :
  fresh (ticked EOL w m2) = fresh w.
Proof.
  unfold ticked. destruct (allCompleted m2); [|reflexivity].
  destruct (clear m2); simpl; now rewrite stop_fresh.
Qed.

(** The line of an entry in a known state, after the cursor moved. *)
Lemma painted_line (m : Multispinner) (e : spinner) :
  states.hasOwnProperty (state e) = true ->
  styled chalk m = true ->
  drawn_as chalk (color_for m (state e))
    (indentStr m ++ glyph_for m (state e) ++ " " ++ text e)
    (paint chalk (advance m) e).
Proof. intros H Hs. exact (paint_known chalk (advance m) e H Hs). Qed.

Lemma styled_settings (m m' : Multispinner) :
  settings m' = settings m -> styled chalk m' = styled chalk m.
Proof.
  unfold settings, styled. intros H. inversion H. congruence.
Qed.

(** One tick with every entry in a known state and the configured colors
    defined by chalk, spelled out: the callback returns; cursor and frame
    are those of [advance]; the settings, the handle, the keys, the states
    and the labels stay; every entry shows its painted line; the log grows
    by the block and, on completion with [clear] set, by a [clear()]. *)
Lemma tick_spec (w : world) :
  known_states (self w) = true ->
  styled chalk (self w) = true ->
  exists w',
    tick chalk EOL w = Normal w'
    /\ known_states (self w') = true
    /\ settings (self w') = settings (self w)
    /\ i (self w') = js_rem (js_incr (i (self w))) (frameCount (self w))
    /\ currentFrame (self w') = js_index (frames (self w)) (i (self w'))
    /\ timer (self w') = timer (self w)
    /\ fresh w' = fresh w
    /\ map fst (spinners (self w')) = map fst (spinners (self w))
    /\ allCompleted (self w') = allCompleted (self w)
    /\ (forall k,
          JsObject.get k (spinners (self w'))
          = option_map (repaint chalk (advance (self w)))
              (JsObject.get k (spinners (self w))))
    /\ intervals w'
       = (if allCompleted (self w) then intervals (stop w) else intervals w)
    /\ log w'
       = log w ++ Update (update (self w)) (joined_lines EOL (self w'))
           :: (if allCompleted (self w) && clear (self w)
               then [Clear logUpdate] else []).
Proof.
  intros Hknown Hstyled.
  destruct (tick_known chalk EOL w Hknown Hstyled)
    as (o & Ht & Hk & Hko & Hall & Hget).
  exists (ticked EOL w (set_spinners o (advance (self w)))).
  rewrite ticked_self, ticked_log, ticked_fresh, ticked_intervals, Hall
    by reflexivity.
  repeat split; auto.
Qed.

End Drawing.

Section Lines.

Variable chalk : string -> option (string -> string).
Variable EOL : string.

Lemma tick_current (w w' : world) (k : string) (e : spinner) :
  known_states (self w) = true ->
  styled chalk (self w) = true ->
  (forall k,
      JsObject.get k (spinners (self w'))
      = option_map (repaint chalk (advance (self w)))
          (JsObject.get k (spinners (self w)))) ->
  JsObject.get k (spinners (self w)) = Some e ->
  drawn_as chalk (color_for (self w) (state e))
    (indentStr (self w) ++ glyph_for (self w) (state e) ++ " " ++ text e)
    (current_at k (self w')).
Proof.
  intros Hknown Hstyled Hget Hg. unfold current_at. rewrite Hget, Hg. simpl.
  apply painted_line; auto. eapply known_states_get; eauto.
Qed.


End Lines.


(** The registry of [new Multispinner(['b', '1'])]. *)
Example array_index_name_first :
  construct defaults (VArray ["b"; "1"]) VUndefined
  = inr (set_spinners
           [("b", mkSpinner states.incomplete None "b");
            ("1", mkSpinner states.incomplete None "1")] defaults)
  /\ JsObject.keys [("b", 0%nat); ("1", 1%nat)] = ["1"; "b"].
Proof. split; reflexivity. Qed.


(** ** Completion calls and the next tick *)

Section NextTick.

Variable chalk : string -> option (string -> string).
Variable EOL : string.

Lemma stop_set_start_complete (name st : string) (e : spinner) (w : world) :
  JsObject.get name (spinners (self w)) = Some e ->
  states.hasOwnProperty st = true ->
  complete name st w = Normal (stop_set_start name st e w).
Proof.
  intros Hg Hst. rewrite (complete_present name st e w Hg Hst).
  unfold stop_set_start. now rewrite stop_self.
Qed.

Lemma stop_clears_handle (w : world) (h : nat) :
  timer (self w) = Some h -> ~ In h (intervals (stop w)).
Proof.
  intros Ht Hin. unfold stop, clearInterval in Hin. rewrite Ht in Hin.
  simpl in Hin. apply filter_In in Hin. destruct Hin as [_ Hne].
  rewrite Nat.eqb_refl in Hne. discriminate.
Qed.

Lemma stop_set_start_next_tick (name st : string) (e : spinner) (w : world) :
  JsObject.get name (spinners (self w)) = Some e ->
  st = states.success \/ st = states.error ->
  known_states (self w) = true ->
  styled chalk (self w) = true ->
  JsObject.get name (spinners (self (stop_set_start name st e w)))
  = Some (mkSpinner st (current e) (text e))
  /\ In (fresh w) (intervals (stop_set_start name st e w))
  /\ timer (self (stop_set_start name st e w)) = Some (fresh w)
  /\ (exists w2,
        exec chalk EOL (Fire (fresh w)) (stop_set_start name st e w)
        = Some w2)
  /\ forall t w2,
       exec chalk EOL (Fire t) (stop_set_start name st e w) = Some w2 ->
       tick chalk EOL (stop_set_start name st e w) = Normal w2
       /\ drawn_as chalk
            (if String.eqb st states.success then successColor (self w)
             else errorColor (self w))
            (indentStr (self w)
             ++ (if String.eqb st states.success then successSymbol (self w)
                 else errorSymbol (self w))
             ++ " " ++ text e)
            (current_at name (self w2))
       /\ log w2
          = log w
            ++ Update (update (self w))
                 (join EOL
                    (map (fun k => current_at k (self w2))
                       (JsObject.keys (spinners (self w)))))
               :: (if allCompleted (self (stop_set_start name st e w))
                      && clear (self w)
                   then [Clear logUpdate] else []).
Proof.
  intros Hg Hst Hknown Hstyled.
  assert (Hown : states.hasOwnProperty st = true)
    by (apply known_state_cases; tauto).
  unfold stop_set_start. rewrite stop_self.
  set (m1 := set_spinners
               (JsObject.set name (mkSpinner st (current e) (text e))
                  (spinners (self w))) (self w)).
  set (w1 := start (with_self m1 (stop w))).
  assert (Hg1 : JsObject.get name (spinners (self w1))
                = Some (mkSpinner st (current e) (text e))).
  { unfold w1, m1. simpl. apply get_set_same. }
  assert (Hin : In (fresh w) (intervals w1)).
  { unfold w1. simpl. rewrite stop_fresh. apply in_or_app. right. now left. }
  assert (Htm : timer (self w1) = Some (fresh w)).
  { unfold w1. simpl. now rewrite stop_fresh. }
  assert (Hk1 : known_states (self w1) = true).
  { apply (known_states_set (self w) name
             (mkSpinner st (current e) (text e)) Hknown Hown). }
  assert (Hs1 : styled chalk (self w1) = true) by exact Hstyled.
  assert (Hkeys : map fst (spinners (self w1)) = map fst (spinners (self w))).
  { unfold w1, m1. simpl. eapply set_present_keeps_keys; eauto. }
  assert (Hlog1 : log w1 = log w).
  { unfold w1. simpl. apply stop_log. }
  destruct (tick_spec chalk EOL w1 Hk1 Hs1)
    as (w' & Ht & _ & _ & _ & _ & _ & _ & Hk & _ & Hget & _ & Hlog).
  assert (Hfire : forall t w2,
             exec chalk EOL (Fire t) w1 = Some w2 -> w2 = w').
  { intros t w2 He. unfold exec in He.
    destruct (existsb (Nat.eqb t) (intervals w1)); [|discriminate].
    rewrite Ht in He. simpl in He. now inversion He. }
  split; [exact Hg1|]. split; [exact Hin|]. split; [exact Htm|]. split.
  - exists w'. unfold exec.
    assert (Hex : existsb (Nat.eqb (fresh w)) (intervals w1) = true).
    { apply existsb_exists. exists (fresh w). split; auto.
      apply Nat.eqb_refl. }
    rewrite Hex, Ht. reflexivity.
  - intros t w2 He. rewrite (Hfire t w2 He). split; [exact Ht|]. split.
    + pose proof (tick_current chalk w1 w' name _ Hk1 Hs1 Hget Hg1) as Hd.
      destruct Hst; subst st; exact Hd.
    + rewrite Hlog, Hlog1. unfold joined_lines, JsObject.keys.
      rewrite Hk, Hkeys. reflexivity.
Qed.

(** C5.  On a name of the registry, [success] (resp. [error]) is: stop the
    loop, set the entry's state to Success (resp. Error), restart the
    loop.  The interval that [this.state] names is disarmed before the
    state is written, so its tick cannot run in between; afterwards the
    new interval is armed, and the very next tick, whichever armed
    interval fires, draws the entry with the success (resp. error) symbol
    in the success (resp. error) color and hands [this.update] the block
    with that line (every entry in a known state and the configured
    colors defined by chalk, so that the tick returns). *)
Theorem completion_stops_sets_restarts (name : string) (e : spinner)
  (w : world) :
  JsObject.get name (spinners (self w)) = Some e ->
  known_states (self w) = true ->
  styled chalk (self w) = true ->
  success name w = Normal (stop_set_start name states.success e w)
  /\ error name w = Normal (stop_set_start name states.error e w)
  /\ (forall h, timer (self w) = Some h -> ~ In h (intervals (stop w)))
  /\ forall st,
       st = states.success \/ st = states.error ->
       JsObject.get name (spinners (self (stop_set_start name st e w)))
       = Some (mkSpinner st (current e) (text e))
       /\ In (fresh w) (intervals (stop_set_start name st e w))
       /\ timer (self (stop_set_start name st e w)) = Some (fresh w)
       /\ (exists w2,
             exec chalk EOL (Fire (fresh w)) (stop_set_start name st e w)
             = Some w2)
       /\ forall t w2,
            exec chalk EOL (Fire t) (stop_set_start name st e w) = Some w2 ->
            tick chalk EOL (stop_set_start name st e w) = Normal w2
            /\ drawn_as chalk
                 (if String.eqb st states.success
                  then successColor (self w) else errorColor (self w))
                 (indentStr (self w)
                  ++ (if String.eqb st states.success
                      then successSymbol (self w) else errorSymbol (self w))
                  ++ " " ++ text e)
                 (current_at name (self w2))
            /\ log w2
               = log w
                 ++ Update (update (self w))
                      (join EOL
                         (map (fun k => current_at k (self w2))
                            (JsObject.keys (spinners (self w)))))
                    :: (if allCompleted (self (stop_set_start name st e w))
                           && clear (self w)
                        then [Clear logUpdate] else []).
Proof.
  intros Hg Hknown Hstyled.
  split; [now apply stop_set_start_complete|].
  split; [now apply stop_set_start_complete|].
  split; [intros h; apply stop_clears_handle|].
  intros st Hst.
  exact (stop_set_start_next_tick name st e w Hg Hst Hknown Hstyled).
Qed.

End NextTick.

Lemma completion_stops_sets_restarts_witness :
  success "a" (start (boot two_tasks))
  = Normal (stop_set_start "a" states.success
              (mkSpinner states.incomplete None "Task A")
              (start (boot two_tasks))).
Proof.
  apply (completion_stops_sets_restarts styles LF "a"
           (mkSpinner states.incomplete None "Task A")
           (start (boot two_tasks))); reflexivity.
Defined.

(** ** The end of the loop *)

Section Termination.

Variable chalk : string -> option (string -> string).
Variable EOL : string.

Lemma idle_without_timer (w w' : world) :
  intervals w = [] -> idles chalk EOL w w' -> w' = w.
Proof.
  intros Hi Hr. induction Hr as [|w1 w2 t Hr IH He]; auto.
  subst w1. simpl in He. rewrite Hi in He. discriminate.
Qed.

Lemma clears_app (l l' : list event) :
  clears (l ++ l') = (clears l + clears l')%nat.
Proof. unfold clears. now rewrite filter_app, length_app. Qed.

(** X18.  With the handle's interval the only one armed, every entry
    terminal and in a known state, and the configured colors defined by
    chalk, the next tick stops the loop: it hands the final block to
    [this.update], clears the interval, and calls [logUpdate.clear()]
    exactly once when [clear] is set and not at all otherwise; from then
    on no interval fires, so the frame cursor does not move and nothing
    more is drawn. *)
Theorem loop_stops_once_all_completed (w : world) (h : nat) :
  known_states (self w) = true ->
  styled chalk (self w) = true ->
  allCompleted (self w) = true ->
  intervals w = [h] ->
  timer (self w) = Some h ->
  exists w',
    exec chalk EOL (Fire h) w = Some w'
    /\ tick chalk EOL w = Normal w'
    /\ intervals w' = []
    /\ log w'
       = log w ++ Update (update (self w)) (joined_lines EOL (self w'))
           :: (if clear (self w) then [Clear logUpdate] else [])
    /\ clears (log w')
       = (clears (log w) + (if clear (self w) then 1 else 0))%nat
    /\ forall w'',
         idles chalk EOL w' w'' ->
         w'' = w' /\ i (self w'') = i (self w') /\ log w'' = log w'.
Proof.
  intros Hknown Hstyled Hall Hi Ht.
  destruct (tick_spec chalk EOL w Hknown Hstyled)
    as (w' & Htick & _ & _ & _ & _ & _ & _ & _ & _ & _ & Hint & Hlog).
  rewrite Hall in Hint, Hlog. simpl in Hlog.
  assert (Hnone : intervals w' = []).
  { rewrite Hint. apply stop_disarms. right. exists h. auto. }
  exists w'. split; [|split; [exact Htick|split; [exact Hnone|split;
    [exact Hlog|split]]]].
  - simpl. rewrite Hi. simpl. rewrite Nat.eqb_refl. simpl. now rewrite Htick.
  - rewrite Hlog, clears_app. destruct (clear (self w)); reflexivity.
  - intros w'' Hr. apply idle_without_timer in Hr; auto. now subst.
Qed.

End Termination.

Lemma loop_stops_once_all_completed_witness :
  exists w',
    exec styles LF (Fire 2%nat) both_done = Some w'
    /\ tick styles LF both_done = Normal w'
    /\ intervals w' = []
    /\ log w'
       = log both_done
         ++ Update (update (self both_done)) (joined_lines LF (self w'))
            :: (if clear (self both_done) then [Clear logUpdate] else [])
    /\ clears (log w')
       = (clears (log both_done)
          + (if clear (self both_done) then 1 else 0))%nat
    /\ forall w'',
         idles styles LF w' w'' ->
         w'' = w' /\ i (self w'') = i (self w') /\ log w'' = log w'.
Proof.
  apply (loop_stops_once_all_completed styles LF both_done 2%nat);
    reflexivity.
Defined.

(** C7 is broken by the code.  With [clear] set and [start()] called
    twice, both tasks are completed: every entry is terminal, intervals 0
    and 3 are armed and [this.state] holds 3.  The tick of interval 3
    draws, clears interval 3 and calls [logUpdate.clear()]; interval 0
    stays armed, and each of its next three firings moves the frame
    cursor, draws again and calls [logUpdate.clear()] again. *)
Theorem finished_loop_keeps_drawing_after_two_starts :
  construct defaults
    (VObject [("a", VString "Task A"); ("b", VString "Task B")])
    (VObject [("clear", VBoolean true)])
  = inr clearing
  /\ allCompleted (self twice_started_clearing) = true
  /\ intervals twice_started_clearing = [0; 3]%nat
  /\ timer (self twice_started_clearing) = Some 3%nat
  /\ option_map
       (fun w => (i (self w), intervals w, List.length (log w),
                  clears (log w)))
       (exec styles LF (Fire 3%nat) twice_started_clearing)
     = Some (Num 1, [0%nat], 2%nat, 1%nat)
  /\ option_map
       (fun w => (i (self w), intervals w, List.length (log w),
                  clears (log w)))
       (run styles LF [Fire 3; Fire 0; Fire 0; Fire 0]%nat
          twice_started_clearing)
     = Some (Num 0, [0%nat], 8%nat, 4%nat).
Proof. repeat split; vm_compute; reflexivity. Qed.

(** ** The frame cursor *)

Lemma incomplete_not_all (m : Multispinner) (k : string) (e : spinner) :
  JsObject.get k (spinners m) = Some e -> state e = states.incomplete ->
  allCompleted m = false.
Proof.
  intros Hg Hst. unfold allCompleted.
  destruct (forallb _ _) eqn:E; auto.
  rewrite forallb_forall in E.
  specialize (E k (get_keys _ _ _ Hg)). rewrite Hg, Hst in E. discriminate.
Qed.


Section Cursor.

Variable chalk : string -> option (string -> string).
Variable EOL : string.



End Cursor.

Section Cycle.

Variable chalk : string -> option (string -> string).
Variable EOL : string.


End Cycle.




(** ** Construction *)

Lemma assign_spinners (prop : string) (v : option value) (m : Multispinner) :
  spinners (assign prop v m) = spinners m.
Proof.
  unfold assign. destruct v as [[]|]; try reflexivity;
    repeat match goal with
           | |- context [if ?b then _ else _] => destruct b
           end; reflexivity.
Qed.

Lemma fold_assign_spinners (ps : JsObject.t value) (ks : list string) :
  forall m,
    spinners (fold_left (fun m prop => assign prop (JsObject.get prop ps) m)
                ks m)
    = spinners m.
Proof.
  induction ks as [|k ks IH]; intros m; simpl; auto.
  now rewrite IH, assign_spinners.
Qed.

Section Construction.

Variable defaultProps : Multispinner.

(** The constructor binds [this.update] by the debug flag. *)
Lemma construct_update (sp opts : value) (m : Multispinner) :
  construct defaultProps sp opts = inr m ->
  update m = if debug m then logUpdateDebug else logUpdate.
Proof.
  unfold construct.
  destruct (negb _ && negb _); [discriminate|].
  destruct (truthy opts && _); [discriminate|].
  intros H. inversion H. reflexivity.
Qed.

(** C8 (amended).  Construction throws a configuration error, and yields
    no instance, exactly when the spinners argument is neither an array
    nor an object, or the options argument is truthy and not an object; a
    falsy options argument of any type is taken as absent.  Every other
    input constructs. *)
Theorem construct_fails_iff_bad_shape (sp opts : value) :
  (construct defaultProps sp opts = inl SpinnersType
   <-> kindOf sp <> "object" /\ kindOf sp <> "array")
  /\ (construct defaultProps sp opts = inl OptsType
      <-> (kindOf sp = "object" \/ kindOf sp = "array")
          /\ truthy opts = true /\ kindOf opts <> "object")
  /\ ((exists m, construct defaultProps sp opts = inr m)
      <-> (kindOf sp = "object" \/ kindOf sp = "array")
          /\ (truthy opts = false \/ kindOf opts = "object")).
Proof.
  unfold construct.
  destruct (String.eqb (kindOf sp) "object") eqn:Ea;
    destruct (String.eqb (kindOf sp) "array") eqn:Eb;
    destruct (truthy opts) eqn:Ec;
    destruct (String.eqb (kindOf opts) "object") eqn:Ed;
    cbn [negb andb];
    rewrite ?String.eqb_eq, ?String.eqb_neq in *;
    (split; [|split]); split;
    try discriminate; try (intros [? ?]; discriminate);
    try (intros _; eexists; reflexivity);
    intuition (try congruence; try discriminate).
Qed.

(** C10.  From an empty array or an empty object (a default table whose
    registry is empty; options absent or a valid configuration)
    construction succeeds with an empty registry, [allCompleted()] is true
    at once, and the first tick of a started loop hands [this.update] an
    empty block and stops the loop. *)
Theorem empty_collection_is_complete (sp opts : value) :
  spinners defaultProps = [] ->
  sp = VArray [] \/ sp = VObject [] ->
  truthy opts = false \/ validOpts opts = true ->
  exists m,
    construct defaultProps sp opts = inr m
    /\ spinners m = []
    /\ allCompleted m = true
    /\ forall chalk EOL, exists w',
         exec chalk EOL (Fire 0%nat) (start (boot m)) = Some w'
         /\ tick chalk EOL (start (boot m)) = Normal w'
         /\ intervals w' = []
         /\ log w'
            = Update (update m) ""
                :: (if clear m then [Clear logUpdate] else []).
Proof.
  intros Hd Hsp Hopts.
  assert (Hc : exists m, construct defaultProps sp opts = inr m
                         /\ spinners m = []).
  { unfold construct.
    assert (Hk : negb (String.eqb (kindOf sp) "object")
                 && negb (String.eqb (kindOf sp) "array") = false)
      by (destruct Hsp; subst sp; reflexivity).
    rewrite Hk.
    assert (Ho : truthy opts && negb (String.eqb (kindOf opts) "object")
                 = false).
    { destruct Hopts as [H|H]; [now rewrite H|].
      destruct opts; simpl in H; try discriminate.
      reflexivity. }
    rewrite Ho. eexists. split; [reflexivity|].
    cbn [spinners set_update].
    destruct Hsp; subst sp; cbn [kindOf String.eqb Ascii.eqb Bool.eqb
                                  elements_of props_of fold_left
                                  JsObject.keys JsObject.own_keys map
                                  JsObject.index_keys filter app];
      (destruct (validOpts opts);
       [rewrite fold_assign_spinners|]; exact Hd). }
  destruct Hc as (m & Hm & Hs).
  exists m. split; [exact Hm|]. split; [exact Hs|].
  assert (Hall : allCompleted m = true)
    by (unfold allCompleted; rewrite Hs; reflexivity).
  split; [exact Hall|].
  intros chalk EOL.
  assert (Ht : tick chalk EOL (start (boot m))
               = Normal (ticked EOL (start (boot m))
                           (advance (self (start (boot m)))))).
  { unfold tick. simpl spinners. rewrite Hs. reflexivity. }
  assert (Hall' : allCompleted (advance (self (start (boot m)))) = true)
    by exact Hall.
  eexists. split; [|split; [exact Ht|split]].
  - simpl. now rewrite Ht.
  - rewrite ticked_intervals, Hall' by reflexivity.
    apply stop_disarms, start_single. reflexivity.
  - rewrite ticked_log, Hall'. unfold block. simpl spinners. rewrite Hs.
    simpl. destruct (clear m); reflexivity.
Qed.

End Construction.

Lemma empty_collection_is_complete_witness :
  exists m,
    construct defaults (VArray []) VUndefined = inr m
    /\ spinners m = []
    /\ allCompleted m = true
    /\ forall chalk EOL, exists w',
         exec chalk EOL (Fire 0%nat) (start (boot m)) = Some w'
         /\ tick chalk EOL (start (boot m)) = Normal w'
         /\ intervals w' = []
         /\ log w'
            = Update (update m) ""
                :: (if clear m then [Clear logUpdate] else []).
Proof.
  apply (empty_collection_is_complete defaults (VArray []) VUndefined).
  - reflexivity.
  - left. reflexivity.
  - left. reflexivity.
Defined.

(** C8, as stated, fails: [false] is a supplied options argument that is
    no key-value mapping, and construction succeeds. *)
Lemma construct_accepts_falsy_options :
  construct defaults (VArray ["x"; "y"]) (VBoolean false)
  = inr (set_spinners
           [("x", mkSpinner states.incomplete None "x");
            ("y", mkSpinner states.incomplete None "y")] defaults)
  /\ kindOf (VBoolean false) <> "object".
Proof. split; [reflexivity|discriminate]. Qed.

(** The scenario of the spec: malformed options fail the construction. *)
Example construct_rejects_string_options :
  construct defaults (VArray ["x"; "y"]) (VString "fast") = inl OptsType.
Proof. reflexivity. Qed.

(** C4 fails on the code.  An instance built with [debug] and [clear]:
    its block goes to the log-update instance over the discarding stream,
    but the clear on completion is called on the module's own [logUpdate],
    which writes to [process.stdout]. *)
Theorem debug_clear_reaches_terminal :
  construct defaults (VArray ["a"])
    (VObject [("debug", VBoolean true); ("clear", VBoolean true)])
  = inr quiet
  /\ update quiet = logUpdateDebug
  /\ log (after (tick styles LF (after (success "a" (start (boot quiet))))))
     = [Update logUpdateDebug (ansi "green" (" " ++ "v" ++ " " ++ "a"));
        Clear logUpdate]
  /\ terminal_writes
       (log (after (tick styles LF (after (success "a" (start (boot quiet)))))))
     = [Clear logUpdate].
Proof. repeat split. Qed.

(** ** The hypotheses of the tick theorems hold in every run *)

Lemma createSpinner_known (name : string) (label : option value)
  (m : Multispinner) :
  known_states m = true -> known_states (createSpinner name label m) = true.
Proof.
  intros H. unfold createSpinner. now apply known_states_set.
Qed.

Lemma known_states_spinners (m m' : Multispinner) :
  spinners m' = spinners m -> known_states m' = known_states m.
Proof. unfold known_states. now intros ->. Qed.

Lemma fold_createSpinner_known {A} (f : A -> string * option value)
  (xs : list A) :
  forall m,
    known_states m = true ->
    known_states
      (fold_left (fun m x => createSpinner (fst (f x)) (snd (f x)) m) xs m)
    = true.
Proof.
  induction xs as [|x xs IH]; intros m H; simpl; auto.
  apply IH. now apply createSpinner_known.
Qed.

(** Every entry of a constructed instance is in a known state, given that
    the default table's registry is. *)
Lemma construct_known_states (defaultProps : Multispinner)
  (sp opts : value) (m : Multispinner) :
  known_states defaultProps = true ->
  construct defaultProps sp opts = inr m ->
  known_states m = true.
Proof.
  intros Hd. unfold construct.
  destruct (negb _ && negb _); [discriminate|].
  destruct (truthy opts && _); [discriminate|].
  intros H. inversion H. clear H.
  match goal with
  | |- known_states (set_update _ ?M) = true => change (known_states M = true)
  end.
  set (m1 := if validOpts opts then _ else defaultProps).
  assert (Hm1 : known_states m1 = true).
  { unfold m1. destruct (validOpts opts); auto.
    rewrite (known_states_spinners defaultProps); auto.
    apply fold_assign_spinners. }
  destruct (String.eqb (kindOf sp) "array").
  - apply (fold_createSpinner_known (fun s => (s, None))). exact Hm1.
  - apply (fold_createSpinner_known
             (fun s => (s, JsObject.get s (props_of sp)))). exact Hm1.
Qed.

Section Invariants.

Variable chalk : string -> option (string -> string).
Variable EOL : string.

Lemma complete_known (name st : string) (w : world) :
  known_states (self w) = true ->
  known_states (self (after (complete name st w))) = true.
Proof.
  intros H. unfold complete.
  destruct (states.hasOwnProperty st) eqn:Hst; simpl; auto.
  rewrite stop_self.
  destruct (JsObject.get name (spinners (self w))) as [e|]; simpl.
  - apply (known_states_set (self w) name
             (mkSpinner st (current e) (text e)) H Hst).
  - destruct (JsObject.inherited name); simpl; now rewrite stop_self.
Qed.

Lemma set_keeps_states (k : string) (e e' : spinner)
  (o : JsObject.t spinner) :
  JsObject.get k o = Some e -> state e' = state e ->
  map (fun kv => (fst kv, state (snd kv))) (JsObject.set k e' o)
  = map (fun kv => (fst kv, state (snd kv))) o.
Proof.
  intros Hg Hst. induction o as [|[k0 e0] o IH]; simpl in *; [discriminate|].
  destruct (String.eqb k k0) eqn:E; simpl.
  - inversion Hg. subst e0. now rewrite Hst.
  - now rewrite IH.
Qed.

(** The first [map] of the callback keeps every key and every state, also
    of entries it does not reach, whether it returns or throws. *)
Lemma render_each_states (ks : list string) :
  forall m,
    map (fun kv => (fst kv, state (snd kv)))
      (spinners (after (render_each chalk ks m)))
    = map (fun kv => (fst kv, state (snd kv))) (spinners m).
Proof.
  induction ks as [|k ks IH]; intros m; simpl; auto.
  unfold render.
  destruct (JsObject.get k (spinners m)) as [e|] eqn:Hg; [|reflexivity].
  destruct (paint chalk m e); [|reflexivity].
  rewrite IH. simpl. apply (set_keeps_states k e); auto.
Qed.

Lemma known_states_by_states (m m' : Multispinner) :
  map (fun kv => (fst kv, state (snd kv))) (spinners m')
  = map (fun kv => (fst kv, state (snd kv))) (spinners m) ->
  known_states m' = known_states m.
Proof.
  unfold known_states. generalize (spinners m) (spinners m').
  intros l. induction l as [|kv l IH]; intros l' H; destruct l' as [|kv' l'];
    simpl in *; try discriminate; auto.
  inversion H as [[Hk Hs Hl]]. rewrite (IH l' Hl). now rewrite Hs.
Qed.

Lemma tick_known_states (w : world) :
  known_states (self (after (tick chalk EOL w))) = known_states (self w).
Proof.
  apply known_states_by_states.
  pose proof (render_each_states
                (JsObject.keys (spinners (advance (self w))))
                (advance (self w))) as H.
  unfold tick.
  destruct (render_each chalk _ (advance (self w))) as [m2|x m2];
    simpl after in *.
  - rewrite ticked_self. exact H.
  - exact H.
Qed.

Lemma exec_known (c : call) (w w' : world) :
  known_states (self w) = true -> exec chalk EOL c w = Some w' ->
  known_states (self w') = true.
Proof.
  intros H He. destruct c; simpl in He.
  - inversion He. exact H.
  - inversion He. now rewrite stop_self.
  - inversion He. now apply complete_known.
  - inversion He. now apply complete_known.
  - destruct (existsb (Nat.eqb t) (intervals w)); [|discriminate].
    inversion He. now rewrite tick_known_states.
Qed.

(** From a constructed instance, in every run that calls [start()] only
    while no interval is armed: one interval at most, the handle's, and
    every entry in a known state. *)
Lemma run_invariants (w0 w : world) :
  single_timer w0 -> known_states (self w0) = true ->
  reaches chalk EOL w0 w ->
  single_timer w /\ known_states (self w) = true.
Proof.
  intros Hs Hk Hr. induction Hr as [|w w' c Hr [IHs IHk] Hp He]; auto.
  split.
  - eapply exec_single; eauto.
  - eapply exec_known; eauto.
Qed.

End Invariants.

(** The scenario of the spec: after [success("a")] the next tick shows [a]
    with the success symbol and [b] with a frame; the loop runs on until
    [b] completes as well, and then stops on its next tick. *)
Example scenario_two_tasks :
  log (after (tick styles LF (after (success "a" (start (boot two_tasks))))))
  = [Update logUpdate
       (ansi "green" (" " ++ "v" ++ " " ++ "Task A") ++ LF
        ++ ansi "blue" (" " ++ "\" ++ " " ++ "Task B"))%string]
  /\ allCompleted (self (after (success "a" (start (boot two_tasks)))))
     = false
  /\ allCompleted (self both_done) = true
  /\ intervals both_done = [2%nat]
  /\ intervals (after (tick styles LF both_done)) = [].
Proof. repeat split. Qed.

(** * Further properties of the methods *)

(** ** [stop] and [allCompleted] *)

Lemma filter_twice {A} (f : A -> bool) (l : list A) :
  filter f (filter f l) = filter f l.
Proof.
  induction l as [|x l IH]; simpl; auto.
  destruct (f x) eqn:E; simpl; rewrite ?E, IH; reflexivity.
Qed.

(** X1.  [stop()] disarms the interval named by [this.state] and nothing
    else: an interval is armed afterwards exactly when it was armed before
    and is not the handle's.  The instance (the stale handle included),
    the handle supply and the log are left alone; nothing at all changes
    when no interval is armed, and a second [stop()] in a row changes
    nothing more. *)
Theorem stop_only_disarms (w : world) :
  self (stop w) = self w
  /\ fresh (stop w) = fresh w
  /\ log (stop w) = log w
  /\ (forall t, In t (intervals (stop w)) <->
        In t (intervals w) /\ timer (self w) <> Some t)
  /\ (intervals w = [] -> stop w = w)
  /\ stop (stop w) = stop w.
Proof.
  split; [apply stop_self|]. split; [apply stop_fresh|].
  split; [apply stop_log|].
  unfold stop, clearInterval.
  destruct w as [m ts f l]. simpl.
  destruct (timer m) as [h|] eqn:Eh; simpl; rewrite ?Eh.
  - split; [|split].
    + intros t. rewrite filter_In, negb_true_iff, Nat.eqb_neq.
      split; intros [Hin Hne]; split; auto; congruence.
    + intros ->. reflexivity.
    + now rewrite filter_twice.
  - split; [|split]; auto. intros t. split.
    + intros Hin. split; auto. discriminate.
    + tauto.
Qed.

(** X2.  [allCompleted()] is true exactly when no entry of the registry is
    in state Incomplete; any other state value counts as finished. *)
Theorem allCompleted_iff_none_incomplete (m : Multispinner) :
  allCompleted m = true
  <-> forall k e,
        JsObject.get k (spinners m) = Some e ->
        state e <> states.incomplete.
Proof.
  unfold allCompleted. rewrite forallb_forall. split.
  - intros H k e Hg. specialize (H k (get_keys _ _ _ Hg)).
    rewrite Hg in H. apply negb_true_iff in H.
    now apply String.eqb_neq in H.
  - intros H k Hin. destruct (keys_get _ _ Hin) as (e & Hg).
    rewrite Hg. apply negb_true_iff, String.eqb_neq. eauto.
Qed.

(** ** Completion calls: what they leave alone *)

(** Whatever its outcome, a completion call draws nothing and keeps the
    cursor, the frame and the settings. *)
Lemma complete_keeps (name st : string) (w : world) :
  log (after (complete name st w)) = log w
  /\ i (self (after (complete name st w))) = i (self w)
  /\ currentFrame (self (after (complete name st w)))
     = currentFrame (self w)
  /\ settings (self (after (complete name st w))) = settings (self w).
Proof.
  unfold complete.
  destruct (negb (states.hasOwnProperty st)); simpl; auto.
  rewrite stop_self.
  destruct (JsObject.get name (spinners (self w))); simpl;
    [|destruct (JsObject.inherited name); simpl];
    rewrite ?stop_log, ?stop_self; auto.
Qed.

(** X3.  A completion call draws nothing and moves no cursor: the log,
    the frame cursor, the current frame and the settings are as before;
    every entry under another name is untouched, and the keys of the
    registry stay as they are. *)
Theorem completion_touches_one_entry (name st : string) (w : world) :
  log (after (complete name st w)) = log w
  /\ i (self (after (complete name st w))) = i (self w)
  /\ currentFrame (self (after (complete name st w)))
     = currentFrame (self w)
  /\ settings (self (after (complete name st w))) = settings (self w)
  /\ map fst (spinners (self (after (complete name st w))))
     = map fst (spinners (self w))
  /\ forall k,
       k <> name ->
       JsObject.get k (spinners (self (after (complete name st w))))
       = JsObject.get k (spinners (self w)).
Proof.
  destruct (complete_keeps name st w) as (Hl & Hi & Hc & Hs).
  repeat (split; [assumption|]).
  unfold complete.
  destruct (negb (states.hasOwnProperty st)); simpl; auto.
  rewrite stop_self.
  destruct (JsObject.get name (spinners (self w))) as [e|] eqn:Hg; simpl.
  - split.
    + eapply set_present_keeps_keys; eauto.
    + intros k Hne. now apply get_set_other.
  - destruct (JsObject.inherited name); simpl; rewrite stop_self; auto.
Qed.

(** X4.  A completion call that throws leaves the registry as it was.
    Thrown for the state value, it has done nothing at all; thrown for the
    name (no entry, and no object inherited under that name), it has
    already stopped the loop and does not restart it. *)
Theorem failed_completion_keeps_registry (name st : string) (w : world) :
  thrown (complete name st w) <> None ->
  spinners (self (after (complete name st w))) = spinners (self w)
  /\ ((thrown (complete name st w) = Some InvalidState
       /\ states.hasOwnProperty st = false
       /\ after (complete name st w) = w)
      \/ (thrown (complete name st w) = Some TypeError
          /\ JsObject.get name (spinners (self w)) = None
          /\ JsObject.inherited name = false
          /\ after (complete name st w) = stop w)).
Proof.
  unfold complete.
  destruct (states.hasOwnProperty st) eqn:Hst; simpl.
  - rewrite stop_self.
    destruct (JsObject.get name (spinners (self w))) as [e|] eqn:Hg; simpl;
      [congruence|].
    destruct (JsObject.inherited name) eqn:Hi; simpl; [congruence|].
    intros _. rewrite stop_self. split; auto.
  - intros _. split; auto.
Qed.

Lemma failed_completion_keeps_registry_witness :
  spinners (self (after (complete "c" states.success
                           (start (boot two_tasks)))))
  = spinners (self (start (boot two_tasks)))
  /\ ((thrown (complete "c" states.success (start (boot two_tasks)))
       = Some InvalidState
       /\ states.hasOwnProperty states.success = false
       /\ after (complete "c" states.success (start (boot two_tasks)))
          = start (boot two_tasks))
      \/ (thrown (complete "c" states.success (start (boot two_tasks)))
          = Some TypeError
          /\ JsObject.get "c" (spinners (self (start (boot two_tasks))))
             = None
          /\ JsObject.inherited "c" = false
          /\ after (complete "c" states.success (start (boot two_tasks)))
             = stop (start (boot two_tasks)))).
Proof.
  apply (failed_completion_keeps_registry "c" states.success
           (start (boot two_tasks))).
  discriminate.
Defined.

Section DeadLoop.

Variable chalk : string -> option (string -> string).
Variable EOL : string.

(** X5.  A completion call with a name the registry lacks ends the
    animation: with the handle's interval the only one armed, the call
    throws a TypeError and leaves no interval armed, so no tick fires
    afterwards and nothing more is drawn until [start()] is called. *)
Theorem unknown_name_ends_the_animation (name st : string) (w : world) :
  JsObject.get name (spinners (self w)) = None ->
  JsObject.inherited name = false ->
  states.hasOwnProperty st = true ->
  single_timer w ->
  thrown (complete name st w) = Some TypeError
  /\ intervals (after (complete name st w)) = []
  /\ (forall t, exec chalk EOL (Fire t) (after (complete name st w)) = None)
  /\ forall w',
       idles chalk EOL (after (complete name st w)) w' ->
       w' = after (complete name st w).
Proof.
  intros Hg Hi Hst Hs.
  assert (Hc : complete name st w = Throw TypeError (stop w)).
  { unfold complete. rewrite Hst. simpl. now rewrite stop_self, Hg, Hi. }
  rewrite Hc. simpl after. simpl thrown.
  pose proof (stop_disarms w Hs) as Hd.
  split; [reflexivity|]. split; [exact Hd|]. split.
  - intros t. simpl. now rewrite Hd.
  - intros w' Hr. eapply idle_without_timer; eauto.
Qed.

End DeadLoop.

Lemma unknown_name_ends_the_animation_witness :
  thrown (complete "c" states.success (start (boot two_tasks)))
  = Some TypeError
  /\ intervals (after (complete "c" states.success (start (boot two_tasks))))
     = []
  /\ (forall t,
        exec styles LF (Fire t)
          (after (complete "c" states.success (start (boot two_tasks))))
        = None)
  /\ forall w',
       idles styles LF
         (after (complete "c" states.success (start (boot two_tasks)))) w' ->
       w' = after (complete "c" states.success (start (boot two_tasks))).
Proof.
  apply (unknown_name_ends_the_animation styles LF "c" states.success
           (start (boot two_tasks))).
  - reflexivity.
  - reflexivity.
  - reflexivity.
  - right. exists 0%nat. split; reflexivity.
Defined.

(** X6.  A completion call under a name that the registry lacks but every
    object inherits (such as [toString]) does not throw: the assignment
    lands on the inherited object, the registry is as before, and the loop
    is stopped and restarted. *)
Theorem inherited_name_completes_nothing (name st : string) (w : world) :
  JsObject.get name (spinners (self w)) = None ->
  JsObject.inherited name = true ->
  states.hasOwnProperty st = true ->
  complete name st w = Normal (start (stop w))
  /\ spinners (self (after (complete name st w))) = spinners (self w)
  /\ allCompleted (self (after (complete name st w)))
     = allCompleted (self w).
Proof.
  intros Hg Hi Hst.
  assert (Hc : complete name st w = Normal (start (stop w))).
  { unfold complete. rewrite Hst. simpl. now rewrite stop_self, Hg, Hi. }
  rewrite Hc. simpl after.
  assert (Hs : spinners (self (start (stop w))) = spinners (self w))
    by (simpl; now rewrite stop_self).
  split; [reflexivity|]. split; [exact Hs|].
  unfold allCompleted. now rewrite Hs.
Qed.

Lemma inherited_name_completes_nothing_witness :
  complete "toString" states.success (start (boot two_tasks))
  = Normal (start (stop (start (boot two_tasks))))
  /\ spinners (self (after (complete "toString" states.success
                              (start (boot two_tasks)))))
     = spinners (self (start (boot two_tasks)))
  /\ allCompleted (self (after (complete "toString" states.success
                                  (start (boot two_tasks)))))
     = allCompleted (self (start (boot two_tasks))).
Proof.
  apply (inherited_name_completes_nothing "toString" states.success
           (start (boot two_tasks))); reflexivity.
Defined.

(** The log, the settings and the entries under other names, after a
    completion call. *)
Lemma completion_frame_helper (name st : string) (w : world) :
  log (after (complete name st w)) = log w
  /\ settings (self (after (complete name st w))) = settings (self w)
  /\ forall k,
       k <> name ->
       JsObject.get k (spinners (self (after (complete name st w))))
       = JsObject.get k (spinners (self w)).
Proof.
  destruct (complete_keeps name st w) as (Hl & _ & _ & Hs).
  split; [exact Hl|]. split; [exact Hs|].
  unfold complete.
  destruct (negb (states.hasOwnProperty st)); simpl; auto.
  rewrite stop_self.
  destruct (JsObject.get name (spinners (self w))) as [e|] eqn:Hg; simpl.
  - intros k Hne. now apply get_set_other.
  - destruct (JsObject.inherited name); simpl; rewrite stop_self; auto.
Qed.

(** ** Completion calls: how they compose *)

Lemma set_set_other {A} (a b : string) (x y : A) (o : JsObject.t A) :
  a <> b ->
  (exists v, JsObject.get a o = Some v) ->
  JsObject.set b y (JsObject.set a x o)
  = JsObject.set a x (JsObject.set b y o).
Proof.
  intros Hne [v Hv]. induction o as [|[k u] o IH]; simpl in *;
    [discriminate|].
  destruct (String.eqb a k) eqn:Ea.
  - apply String.eqb_eq in Ea. subst k.
    assert (Eb : String.eqb b a = false)
      by (apply String.eqb_neq; congruence).
    simpl. rewrite Eb. simpl. now rewrite String.eqb_refl.
  - destruct (String.eqb b k) eqn:Eb; simpl; rewrite Ea, ?Eb.
    + reflexivity.
    + now rewrite IH.
Qed.

(** X7.  Completion calls on two different names of the registry commute:
    in either order they leave the same instance, the same interval armed
    and the same log. *)
Theorem completions_commute (a b sa sb : string) (ea eb : spinner)
  (w : world) :
  a <> b ->
  JsObject.get a (spinners (self w)) = Some ea ->
  JsObject.get b (spinners (self w)) = Some eb ->
  states.hasOwnProperty sa = true ->
  states.hasOwnProperty sb = true ->
  thrown (complete b sb (after (complete a sa w))) = None
  /\ after (complete b sb (after (complete a sa w)))
     = after (complete a sa (after (complete b sb w))).
Proof.
  intros Hne Ha Hb Hsa Hsb.
  rewrite (complete_present a sa ea w Ha Hsa).
  rewrite (complete_present b sb eb w Hb Hsb).
  simpl after.
  set (A := mkSpinner sa (current ea) (text ea)).
  set (B := mkSpinner sb (current eb) (text eb)).
  assert (Hb' : JsObject.get b
                  (spinners (self (start (with_self
                     (set_spinners (JsObject.set a A (spinners (self w)))
                        (self w)) (stop w))))) = Some eb).
  { simpl. rewrite get_set_other; auto. }
  assert (Ha' : JsObject.get a
                  (spinners (self (start (with_self
                     (set_spinners (JsObject.set b B (spinners (self w)))
                        (self w)) (stop w))))) = Some ea).
  { simpl. rewrite get_set_other; auto. }
  rewrite (complete_present b sb eb _ Hb' Hsb).
  rewrite (complete_present a sa ea _ Ha' Hsa).
  split; [reflexivity|].
  simpl after. fold A B.
  unfold start, loop, setInterval, with_self, stop, clearInterval. simpl.
  rewrite (set_set_other a b A B (spinners (self w)) Hne
             (ex_intro _ ea Ha)).
  reflexivity.
Qed.

Lemma completions_commute_witness :
  thrown (complete "b" states.error
            (after (complete "a" states.success (start (boot two_tasks)))))
  = None
  /\ after (complete "b" states.error
              (after (complete "a" states.success (start (boot two_tasks)))))
     = after (complete "a" states.success
                (after (complete "b" states.error (start (boot two_tasks))))).
Proof.
  apply (completions_commute "a" "b" states.success states.error
           (mkSpinner states.incomplete None "Task A")
           (mkSpinner states.incomplete None "Task B")
           (start (boot two_tasks)));
    try reflexivity.
  discriminate.
Defined.

Section Revival.

Variable chalk : string -> option (string -> string).
Variable EOL : string.

(** X8.  No state is final for [complete]: called with the Incomplete
    state value on an entry of the registry, whatever its state, it puts
    the entry back to Incomplete and [allCompleted()] is false again; the
    interval it arms stays armed over the next tick, which (every entry
    in a known state, the configured colors defined by chalk) returns and
    stops nothing. *)
Theorem complete_can_reopen_an_entry (name : string) (e : spinner)
  (w : world) :
  JsObject.get name (spinners (self w)) = Some e ->
  known_states (self w) = true ->
  styled chalk (self w) = true ->
  exists w1 w2,
    complete name states.incomplete w = Normal w1
    /\ JsObject.get name (spinners (self w1))
       = Some (mkSpinner states.incomplete (current e) (text e))
    /\ allCompleted (self w1) = false
    /\ In (fresh w) (intervals w1)
    /\ timer (self w1) = Some (fresh w)
    /\ tick chalk EOL w1 = Normal w2
    /\ intervals w2 = intervals w1
    /\ clears (log w2) = clears (log w).
Proof.
  intros Hg Hknown Hstyled.
  pose proof (complete_present name states.incomplete e w Hg eq_refl) as Hc.
  pose proof (complete_entry name states.incomplete e w Hg eq_refl) as He.
  pose proof (complete_known name states.incomplete w Hknown) as Hk.
  destruct (complete_keeps name states.incomplete w) as (Hl & _ & _ & Hs).
  rewrite Hc in He, Hk, Hl, Hs. simpl after in He, Hk, Hl, Hs.
  set (w1 := start (with_self
                      (set_spinners
                         (JsObject.set name
                            (mkSpinner states.incomplete (current e) (text e))
                            (spinners (self w))) (self w)) (stop w))) in *.
  assert (Hall : allCompleted (self w1) = false)
    by (eapply incomplete_not_all; eauto).
  assert (Hs1 : styled chalk (self w1) = true)
    by (rewrite (styled_settings chalk _ _ Hs); exact Hstyled).
  destruct (tick_spec chalk EOL w1 Hk Hs1)
    as (w2 & Ht & _ & _ & _ & _ & _ & _ & _ & _ & _ & Hint & Hlog).
  rewrite Hall in Hint, Hlog. simpl in Hlog.
  exists w1, w2. split; [exact Hc|]. split; [exact He|].
  split; [exact Hall|]. split.
  { unfold w1. simpl. rewrite stop_fresh. apply in_or_app. right. now left. }
  split.
  { unfold w1. simpl. now rewrite stop_fresh. }
  split; [exact Ht|]. split; [exact Hint|].
  assert (Hl1 : log w1 = log w) by (unfold w1; simpl; apply stop_log).
  rewrite Hlog, clears_app, ?Hl1, ?stop_log. unfold clears at 2. simpl. lia.
Qed.

End Revival.

Lemma complete_can_reopen_an_entry_witness :
  exists w1 w2,
    complete "a" states.incomplete both_done = Normal w1
    /\ JsObject.get "a" (spinners (self w1))
       = Some (mkSpinner states.incomplete None "Task A")
    /\ allCompleted (self w1) = false
    /\ In (fresh both_done) (intervals w1)
    /\ timer (self w1) = Some (fresh both_done)
    /\ tick styles LF w1 = Normal w2
    /\ intervals w2 = intervals w1
    /\ clears (log w2) = clears (log both_done).
Proof.
  apply (complete_can_reopen_an_entry styles LF "a"
           (mkSpinner states.success None "Task A") both_done);
    reflexivity.
Defined.

(** ** Ticks: what they keep, when they fail *)

Section TickFrame.

Variable chalk : string -> option (string -> string).
Variable EOL : string.

(** Whether the callback returns or throws, the instance it leaves is the
    one with the advanced cursor and a registry that differs in [current]
    fields at most. *)
Lemma tick_self (w : world) :
  exists o,
    self (after (tick chalk EOL w)) = set_spinners o (advance (self w))
    /\ map fst o = map fst (spinners (self w))
    /\ forall k e,
         JsObject.get k (spinners (self w)) = Some e ->
         exists e', JsObject.get k o = Some e'
                    /\ state e' = state e /\ text e' = text e.
Proof.
  unfold tick.
  destruct (render_each_frame chalk
              (JsObject.keys (spinners (advance (self w))))
              (advance (self w))) as (o & Ho & Hk & He).
  exists o. split; [|split; [exact Hk|exact He]].
  destruct (render_each chalk _ (advance (self w))) as [m2|x m2];
    simpl in Ho; subst m2; simpl after.
  - apply ticked_self.
  - reflexivity.
Qed.

(** What a tick adds to the log: calls of [this.update], and clears of the
    module's own [logUpdate]. *)
Lemma tick_log (w : world) :
  exists l,
    log (after (tick chalk EOL w)) = log w ++ l
    /\ forall e, In e l ->
         (exists b, e = Update (update (self w)) b) \/ e = Clear logUpdate.
Proof.
  unfold tick.
  destruct (render_each_frame chalk
              (JsObject.keys (spinners (advance (self w))))
              (advance (self w))) as (o & Ho & _).
  destruct (render_each chalk _ (advance (self w))) as [m2|x m2];
    simpl in Ho; subst m2; simpl after.
  - rewrite ticked_log. eexists. split; [reflexivity|].
    intros e [He|He].
    + left. eexists. symmetry. exact He.
    + destruct (allCompleted _ && clear _); simpl in He;
        [destruct He as [He|[]]; auto|contradiction].
  - exists []. split; [now rewrite app_nil_r|]. intros e [].
Qed.

Lemma tick_fresh (w : world) : fresh (after (tick chalk EOL w)) = fresh w.
Proof.
  unfold tick.
  destruct (render_each chalk _ (advance (self w))) as [m2|x m2];
    simpl after.
  - apply ticked_fresh.
  - reflexivity.
Qed.

(** X9.  A tick never changes the state or the label of an entry, nor the
    keys of the registry, nor the settings, whether it returns or throws:
    [allCompleted()] answers after a tick what it answered before. *)
Theorem tick_keeps_states (w : world) :
  map fst (spinners (self (after (tick chalk EOL w))))
  = map fst (spinners (self w))
  /\ settings (self (after (tick chalk EOL w))) = settings (self w)
  /\ allCompleted (self (after (tick chalk EOL w))) = allCompleted (self w)
  /\ forall k e,
       JsObject.get k (spinners (self w)) = Some e ->
       exists e',
         JsObject.get k (spinners (self (after (tick chalk EOL w))))
         = Some e'
         /\ state e' = state e /\ text e' = text e.
Proof.
  destruct (tick_self w) as (o & Hs & Hk & He). rewrite Hs. simpl.
  split; [exact Hk|]. split; [reflexivity|]. split; [|exact He].
  apply (allCompleted_states (self w) (set_spinners o (advance (self w))));
    simpl; auto.
  intros k. destruct (JsObject.get k (spinners (self w))) as [e|] eqn:Hg.
  - destruct (He k e Hg) as (e' & Hg' & Hst & _). rewrite Hg'. simpl.
    now rewrite Hst.
  - destruct (JsObject.get k o) as [e'|] eqn:Hg'; auto.
    exfalso. apply get_in_keys in Hg'. rewrite Hk in Hg'.
    apply in_get in Hg'. destruct Hg' as (e & Hg''). congruence.
Qed.

(** X10.  While an entry is Incomplete, with every entry in a known
    state and the configured colors defined by chalk, a tick returns and
    does not stop the loop: it hands exactly one block, the joined lines,
    to [this.update], calls no clear, and leaves the armed intervals and
    the handle as they are. *)
Theorem tick_keeps_running (w : world) (k : string) (e : spinner) :
  known_states (self w) = true ->
  styled chalk (self w) = true ->
  JsObject.get k (spinners (self w)) = Some e ->
  state e = states.incomplete ->
  exists w',
    tick chalk EOL w = Normal w'
    /\ intervals w' = intervals w
    /\ timer (self w') = timer (self w)
    /\ log w'
       = log w ++ [Update (update (self w)) (joined_lines EOL (self w'))]
    /\ clears (log w') = clears (log w).
Proof.
  intros Hknown Hstyled Hg Hst.
  destruct (tick_spec chalk EOL w Hknown Hstyled)
    as (w' & Ht & _ & _ & _ & _ & Htm & _ & _ & _ & _ & Hint & Hlog).
  rewrite (incomplete_not_all _ _ _ Hg Hst) in Hint, Hlog. simpl in Hlog.
  exists w'. repeat split; auto.
  rewrite Hlog, clears_app. unfold clears. simpl. lia.
Qed.

End TickFrame.

Lemma tick_keeps_running_witness :
  exists w',
    tick styles LF (start (boot two_tasks)) = Normal w'
    /\ intervals w' = intervals (start (boot two_tasks))
    /\ timer (self w') = timer (self (start (boot two_tasks)))
    /\ log w'
       = log (start (boot two_tasks))
         ++ [Update (update (self (start (boot two_tasks))))
               (joined_lines LF (self w'))]
    /\ clears (log w') = clears (log (start (boot two_tasks))).
Proof.
  apply (tick_keeps_running styles LF (start (boot two_tasks)) "b"
           (mkSpinner states.incomplete None "Task B")); reflexivity.
Defined.

Lemma unknown_state_unpainted (chalk : string -> option (string -> string))
  (m : Multispinner) (e : spinner) :
  states.hasOwnProperty (state e) = false -> paint chalk m e = None.
Proof.
  intros H. unfold paint, palette.
  destruct (String.eqb (state e) states.incomplete) eqn:E1.
  { apply String.eqb_eq in E1. rewrite E1 in H. discriminate. }
  destruct (String.eqb (state e) states.success) eqn:E2.
  { apply String.eqb_eq in E2. rewrite E2 in H. discriminate. }
  destruct (String.eqb (state e) states.error) eqn:E3.
  { apply String.eqb_eq in E3. rewrite E3 in H. discriminate. }
  reflexivity.
Qed.

Section TickFailure.

Variable chalk : string -> option (string -> string).
Variable EOL : string.

(** The first [map] throws as soon as it meets an entry whose line cannot
    be painted. *)
Lemma render_each_unpainted (ks : list string) :
  forall m k e,
    In k ks ->
    JsObject.get k (spinners m) = Some e ->
    paint chalk m e = None ->
    thrown (render_each chalk ks m) = Some TypeError.
Proof.
  induction ks as [|k0 ks IH]; intros m k e Hin Hg Hp; [contradiction|].
  simpl. unfold render.
  destruct (JsObject.get k0 (spinners m)) as [e0|] eqn:Hg0; [|reflexivity].
  destruct (paint chalk m e0) eqn:Hp0; [|reflexivity].
  assert (Hne : String.eqb k k0 = false).
  { destruct (String.eqb k k0) eqn:E; auto.
    apply String.eqb_eq in E. subst k0. rewrite Hg in Hg0.
    inversion Hg0. subst e0. congruence. }
  destruct Hin as [Heq|Hin].
  - subst k0. rewrite String.eqb_refl in Hne. discriminate.
  - apply (IH _ k e Hin); auto. simpl. now rewrite get_set, Hne.
Qed.

Lemma tick_unpainted (w : world) (k : string) (e : spinner) :
  JsObject.get k (spinners (self w)) = Some e ->
  paint chalk (advance (self w)) e = None ->
  thrown (tick chalk EOL w) = Some TypeError
  /\ log (after (tick chalk EOL w)) = log w
  /\ intervals (after (tick chalk EOL w)) = intervals w
  /\ i (self (after (tick chalk EOL w)))
     = js_rem (js_incr (i (self w))) (frameCount (self w)).
Proof.
  intros Hg Hp.
  assert (Hth : thrown (render_each chalk
                          (JsObject.keys (spinners (advance (self w))))
                          (advance (self w))) = Some TypeError).
  { apply (render_each_unpainted _ (advance (self w)) k e); auto.
    simpl. eapply get_keys; eauto. }
  destruct (tick_self chalk EOL w) as (o & Hs & _).
  rewrite Hs. revert Hth. unfold tick.
  destruct (render_each chalk _ (advance (self w))) as [m2|x m2]; simpl;
    [discriminate|].
  intros Hx. inversion Hx. auto.
Qed.

(** X11.  The switch of the callback has no default case: with an entry
    in a state that is no key of the state table, the tick throws a
    TypeError after it has advanced the cursor and before it calls
    [this.update]; nothing is drawn, and the interval stays armed. *)
Theorem tick_throws_on_unknown_state (w : world) (k : string) (e : spinner) :
  JsObject.get k (spinners (self w)) = Some e ->
  states.hasOwnProperty (state e) = false ->
  thrown (tick chalk EOL w) = Some TypeError
  /\ log (after (tick chalk EOL w)) = log w
  /\ intervals (after (tick chalk EOL w)) = intervals w
  /\ i (self (after (tick chalk EOL w)))
     = js_rem (js_incr (i (self w))) (frameCount (self w)).
Proof.
  intros Hg Hst. apply (tick_unpainted w k e Hg).
  now apply unknown_state_unpainted.
Qed.

(** X19.  When chalk does not define the color configured for the state
    of some entry, the tick throws a TypeError after it has advanced the
    cursor and before it calls [this.update]: nothing is drawn, the
    interval stays armed, and, the registry and the colors being as they
    were, its next firing throws again. *)
Theorem tick_throws_on_missing_color (w : world) (k : string) (e : spinner) :
  JsObject.get k (spinners (self w)) = Some e ->
  states.hasOwnProperty (state e) = true ->
  chalk (color_for (self w) (state e)) = None ->
  thrown (tick chalk EOL w) = Some TypeError
  /\ log (after (tick chalk EOL w)) = log w
  /\ intervals (after (tick chalk EOL w)) = intervals w
  /\ i (self (after (tick chalk EOL w)))
     = js_rem (js_incr (i (self w))) (frameCount (self w))
  /\ thrown (tick chalk EOL (after (tick chalk EOL w))) = Some TypeError.
Proof.
  intros Hg Hst Hc.
  assert (Hp : forall m e',
             settings m = settings (self w) -> state e' = state e ->
             paint chalk m e' = None).
  { intros m e' Hm He'. apply known_state_cases in Hst.
    unfold settings in Hm. inversion Hm.
    unfold paint, palette. rewrite He'. unfold color_for in Hc.
    destruct Hst as [H|[H|H]]; rewrite H in *; simpl in *;
      match goal with
      | Heq : ?c = _ |- context [chalk ?c] => rewrite Heq
      end; now rewrite Hc. }
  destruct (tick_unpainted w k e Hg
              (Hp (advance (self w)) e eq_refl eq_refl))
    as (Hth & Hl & Hi & Hcur).
  repeat (split; [assumption|]).
  destruct (tick_self chalk EOL w) as (o & Hs & _ & He).
  destruct (He k e Hg) as (e' & Hg' & Hst' & _).
  assert (Hg2 : JsObject.get k (spinners (self (after (tick chalk EOL w))))
                = Some e') by (rewrite Hs; exact Hg').
  apply (tick_unpainted _ k e' Hg2). apply Hp; auto.
  rewrite Hs. reflexivity.
Qed.

(** X12.  When the advanced cursor points outside the frame sequence (a
    frame count that is zero or larger than the number of frames), the
    current frame is [undefined] and every Incomplete entry is drawn with
    the word "undefined" for a glyph; the missing frame makes no tick
    throw (every entry in a known state, the configured colors defined by
    chalk). *)
Theorem missing_frame_prints_undefined (w : world) (k : string)
  (e : spinner) :
  known_states (self w) = true ->
  styled chalk (self w) = true ->
  JsObject.get k (spinners (self w)) = Some e ->
  state e = states.incomplete ->
  js_index (frames (self w))
    (js_rem (js_incr (i (self w))) (frameCount (self w))) = None ->
  exists w',
    tick chalk EOL w = Normal w'
    /\ currentFrame (self w') = None
    /\ drawn_as chalk (incompleteColor (self w))
         (indentStr (self w) ++ "undefined" ++ " " ++ text e)
         (current_at k (self w'))
    /\ exists l,
         log w'
         = log w ++ Update (update (self w)) (joined_lines EOL (self w'))
             :: l.
Proof.
  intros Hknown Hstyled Hg Hst Hout.
  destruct (tick_spec chalk EOL w Hknown Hstyled)
    as (w' & Ht & _ & _ & Hi & Hcf & _ & _ & _ & _ & Hget & _ & Hlog).
  exists w'. split; [exact Ht|]. split; [|split].
  - now rewrite Hcf, Hi.
  - pose proof (tick_current chalk w w' k e Hknown Hstyled Hget Hg) as Hd.
    unfold color_for, glyph_for in Hd. rewrite Hst, Hout in Hd. exact Hd.
  - eexists. exact Hlog.
Qed.

End TickFailure.

Lemma tick_throws_on_unknown_state_witness :
  thrown (tick styles LF (start (boot odd_state))) = Some TypeError
  /\ log (after (tick styles LF (start (boot odd_state))))
     = log (start (boot odd_state))
  /\ intervals (after (tick styles LF (start (boot odd_state))))
     = intervals (start (boot odd_state))
  /\ i (self (after (tick styles LF (start (boot odd_state)))))
     = js_rem (js_incr (i (self (start (boot odd_state)))))
         (frameCount (self (start (boot odd_state)))).
Proof.
  apply (tick_throws_on_unknown_state styles LF (start (boot odd_state)) "b"
           (mkSpinner "paused" None "Task B")); reflexivity.
Defined.

Lemma tick_throws_on_missing_color_witness :
  thrown (tick styles LF (start (boot uncolored))) = Some TypeError
  /\ log (after (tick styles LF (start (boot uncolored))))
     = log (start (boot uncolored))
  /\ intervals (after (tick styles LF (start (boot uncolored))))
     = intervals (start (boot uncolored))
  /\ i (self (after (tick styles LF (start (boot uncolored)))))
     = js_rem (js_incr (i (self (start (boot uncolored)))))
         (frameCount (self (start (boot uncolored))))
  /\ thrown (tick styles LF
               (after (tick styles LF (start (boot uncolored)))))
     = Some TypeError.
Proof.
  apply (tick_throws_on_missing_color styles LF (start (boot uncolored)) "a"
           (mkSpinner states.incomplete None "Task A")); reflexivity.
Defined.

Lemma missing_frame_prints_undefined_witness :
  exists w',
    tick styles LF (start (boot short_frames)) = Normal w'
    /\ currentFrame (self w') = None
    /\ drawn_as styles "blue" (" " ++ "undefined" ++ " " ++ "Task A")
         (current_at "a" (self w'))
    /\ exists l,
         log w'
         = log (start (boot short_frames))
           ++ Update (update (self (start (boot short_frames))))
                (joined_lines LF (self w'))
              :: l.
Proof.
  apply (missing_frame_prints_undefined styles LF (start (boot short_frames))
           "a" (mkSpinner states.incomplete None "Task A")); reflexivity.
Defined.

(** ** Runs: the debug binding and overwritten handles *)

Lemma terminal_blocks_app (l l' : list event) :
  terminal_blocks (l ++ l') = terminal_blocks l ++ terminal_blocks l'.
Proof. unfold terminal_blocks. apply filter_app. Qed.

Section AnyRun.

Variable chalk : string -> option (string -> string).
Variable EOL : string.

(** No call changes the settings, so the configured colors stay defined
    by chalk once they are. *)
Lemma exec_styled (c : call) (w w' : world) :
  styled chalk (self w) = true -> exec chalk EOL c w = Some w' ->
  styled chalk (self w') = true.
Proof.
  intros H He.
  assert (Hs : settings (self w') = settings (self w)).
  { destruct c; simpl in He.
    - inversion He. reflexivity.
    - inversion He. now rewrite stop_self.
    - inversion He. apply complete_keeps.
    - inversion He. apply complete_keeps.
    - destruct (existsb (Nat.eqb t) (intervals w)); [|discriminate].
      inversion He.
      destruct (tick_self chalk EOL w) as (o & Ho & _).
      rewrite Ho. reflexivity. }
  now rewrite (styled_settings chalk _ _ Hs).
Qed.

Lemma exec_debug (c : call) (w w' : world) :
  update (self w) = logUpdateDebug ->
  exec chalk EOL c w = Some w' ->
  update (self w') = logUpdateDebug
  /\ terminal_blocks (log w') = terminal_blocks (log w).
Proof.
  intros Hu He. destruct c; simpl in He.
  - inversion He. subst. simpl. auto.
  - inversion He. subst. now rewrite stop_self, stop_log.
  - inversion He. subst. unfold success.
    destruct (complete_keeps name states.success w) as (Hl & _ & _ & Hs).
    rewrite Hl. split; auto. unfold settings in Hs. inversion Hs. congruence.
  - inversion He. subst. unfold error.
    destruct (complete_keeps name states.error w) as (Hl & _ & _ & Hs).
    rewrite Hl. split; auto. unfold settings in Hs. inversion Hs. congruence.
  - destruct (existsb (Nat.eqb t) (intervals w)); [|discriminate].
    inversion He. subst. split.
    + destruct (tick_self chalk EOL w) as (o & Hs & _). rewrite Hs. exact Hu.
    + destruct (tick_log chalk EOL w) as (l & Hl & Hin).
      rewrite Hl, terminal_blocks_app.
      assert (Hnil : terminal_blocks l = []).
      { unfold terminal_blocks. clear Hl. induction l as [|e l IH]; auto.
        simpl. destruct (Hin e (or_introl eq_refl)) as [[b Hb]|Hb]; subst e.
        - rewrite Hu. apply IH. intros e' He'. apply Hin. now right.
        - apply IH. intros e' He'. apply Hin. now right. }
      rewrite Hnil. apply app_nil_r.
Qed.

(** X13.  An instance constructed with the debug flag set never hands a
    block to the log-update instance of [process.stdout], whatever is
    called on it and however often its intervals fire: every rendered
    block goes to the instance over the discarding stream. *)
Theorem debug_blocks_never_reach_terminal (defaultProps : Multispinner)
  (sp opts : value) (m : Multispinner) (cs : list call) (w : world) :
  construct defaultProps sp opts = inr m ->
  debug m = true ->
  run chalk EOL cs (boot m) = Some w ->
  update (self w) = logUpdateDebug
  /\ terminal_blocks (log w) = []
  /\ forall b, ~ In (Update logUpdate b) (log w).
Proof.
  intros Hc Hd Hr.
  assert (Hu : update (self (boot m)) = logUpdateDebug).
  { simpl. rewrite (construct_update defaultProps sp opts m Hc), Hd.
    reflexivity. }
  assert (Hb : terminal_blocks (log (boot m)) = []) by reflexivity.
  revert Hr Hu Hb. generalize (boot m) as w0.
  induction cs as [|c cs IH]; intros w0 Hr Hu Hb; simpl in Hr.
  - inversion Hr. subst w0. split; [exact Hu|]. split; [exact Hb|].
    intros b Hin.
    assert (Hin' : In (Update logUpdate b) (terminal_blocks (log w))).
    { unfold terminal_blocks. apply filter_In. split; auto. }
    rewrite Hb in Hin'. contradiction.
  - destruct (exec chalk EOL c w0) as [w1|] eqn:He; [|discriminate].
    destruct (exec_debug c w0 w1 Hu He) as [Hu1 Hb1].
    apply (IH w1 Hr Hu1). now rewrite Hb1.
Qed.

Lemma leaked_stop (h : nat) (w : world) : leaked h w -> leaked h (stop w).
Proof.
  intros (Hin & Hne & Hlt). unfold leaked.
  rewrite stop_self, stop_fresh. repeat split; auto.
  unfold stop, clearInterval. destruct (timer (self w)) as [t|]; auto.
  simpl. apply filter_In. split; auto.
  apply negb_true_iff, Nat.eqb_neq. congruence.
Qed.

Lemma armed_start (h : nat) (w : world) :
  In h (intervals w) -> (h < fresh w)%nat -> leaked h (start w).
Proof.
  intros Hin Hlt. unfold leaked. simpl. repeat split.
  - apply in_or_app. now left.
  - intros Heq. inversion Heq. lia.
  - lia.
Qed.

Lemma leaked_complete (h : nat) (name st : string) (w : world) :
  leaked h w -> leaked h (after (complete name st w)).
Proof.
  intros Hl. unfold complete.
  destruct (negb (states.hasOwnProperty st)); simpl; auto.
  pose proof (leaked_stop h w Hl) as (Hin & Hne & Hlt).
  destruct (JsObject.get name (spinners (self (stop w)))); simpl after.
  - apply armed_start; simpl; auto.
  - destruct (JsObject.inherited name); simpl after.
    + apply armed_start; auto.
    + repeat split; auto.
Qed.

Lemma leaked_tick (h : nat) (w : world) :
  leaked h w -> leaked h (after (tick chalk EOL w)).
Proof.
  intros Hl. unfold leaked.
  destruct (tick_timers chalk EOL w) as [Ht [Hi|Hi]];
    rewrite Ht, Hi, tick_fresh.
  - exact Hl.
  - pose proof (leaked_stop h w Hl) as (Hin & _ & _).
    destruct Hl as (_ & Hne & Hlt). auto.
Qed.

Lemma leaked_exec (h : nat) (c : call) (w w' : world) :
  leaked h w -> exec chalk EOL c w = Some w' -> leaked h w'.
Proof.
  intros Hl He. destruct c; simpl in He.
  - inversion He. destruct Hl as (Hin & _ & Hlt). now apply armed_start.
  - inversion He. now apply leaked_stop.
  - inversion He. now apply leaked_complete.
  - inversion He. now apply leaked_complete.
  - destruct (existsb (Nat.eqb t) (intervals w)); [|discriminate].
    inversion He. now apply leaked_tick.
Qed.

(** X14.  Once the handle of an armed interval has been overwritten in
    [this.state] (by a [start()] on a running loop), no method and no
    tick ever clears that interval: it stays armed through every run. *)
Theorem overwritten_handle_is_never_cleared (h : nat) (cs : list call)
  (w w' : world) :
  leaked h w ->
  run chalk EOL cs w = Some w' ->
  In h (intervals w') /\ timer (self w') <> Some h.
Proof.
  intros Hl Hr.
  assert (H : leaked h w').
  { revert w Hl Hr. induction cs as [|c cs IH]; intros w Hl Hr;
      simpl in Hr.
    - inversion Hr. now subst.
    - destruct (exec chalk EOL c w) as [w1|] eqn:He; [|discriminate].
      apply (IH w1); auto. eapply leaked_exec; eauto. }
  destruct H as (Hin & Hne & _). auto.
Qed.

(** X15.  An interval whose handle was overwritten keeps the animation
    drawing for ever: with every entry in a known state and the configured
    colors defined by chalk, so that ticks return, it can fire any number
    of times, also after every spinner has finished, and each firing hands
    one more block to [this.update]. *)
Theorem overwritten_handle_draws_for_ever (h : nat) (n : nat) (w : world) :
  leaked h w ->
  known_states (self w) = true ->
  styled chalk (self w) = true ->
  exists wn,
    fires chalk EOL n h w = Some wn
    /\ In h (intervals wn)
    /\ updates (log wn) = (updates (log w) + n)%nat.
Proof.
  intros Hl Hk Hs.
  assert (H : exists wn,
             fires chalk EOL n h w = Some wn
             /\ leaked h wn
             /\ updates (log wn) = (updates (log w) + n)%nat).
  { revert w Hl Hk Hs. induction n as [|n IH]; intros w Hl Hk Hs.
    - exists w. split; [reflexivity|]. split; [exact Hl|]. lia.
    - assert (He : exec chalk EOL (Fire h) w
                   = Some (after (tick chalk EOL w))).
      { simpl. destruct Hl as (Hin & _).
        assert (Hex : existsb (Nat.eqb h) (intervals w) = true).
        { apply existsb_exists. exists h. split; auto.
          apply Nat.eqb_refl. }
        now rewrite Hex. }
      pose proof (leaked_exec h _ _ _ Hl He) as Hl1.
      pose proof (exec_known chalk EOL _ _ _ Hk He) as Hk1.
      destruct (tick_spec chalk EOL w Hk Hs)
        as (w1 & Ht & _ & Hset & _ & _ & _ & _ & _ & _ & _ & _ & Hlog).
      assert (Hs1 : styled chalk (self (after (tick chalk EOL w))) = true).
      { rewrite Ht. simpl after.
        rewrite (styled_settings chalk _ _ Hset). exact Hs. }
      destruct (IH _ Hl1 Hk1 Hs1) as (wn & Hf & Hln & Hlen).
      exists wn.
      change (fires chalk EOL (S n) h w)
        with (match exec chalk EOL (Fire h) w with
              | Some w' => fires chalk EOL n h w'
              | None => None
              end).
      rewrite He. split; [exact Hf|]. split; [exact Hln|].
      rewrite Hlen, Ht. simpl after. rewrite Hlog.
      unfold updates. rewrite filter_app, length_app. simpl.
      destruct (allCompleted (self w) && clear (self w)); simpl; lia. }
  destruct H as (wn & Hf & (Hin & _) & Hlen). eauto.
Qed.

End AnyRun.

Lemma debug_blocks_never_reach_terminal_witness :
  update (self (after (tick styles LF (after (success "a" (start (boot quiet)))))))
  = logUpdateDebug
  /\ terminal_blocks
       (log (after (tick styles LF (after (success "a" (start (boot quiet)))))))
     = []
  /\ forall b,
       ~ In (Update logUpdate b)
           (log (after (tick styles LF
                          (after (success "a" (start (boot quiet))))))).
Proof.
  apply (debug_blocks_never_reach_terminal styles LF defaults
           (VArray ["a"])
           (VObject [("debug", VBoolean true); ("clear", VBoolean true)])
           quiet [CallStart; CallSuccess "a"; Fire 1%nat]);
    reflexivity.
Defined.

Lemma overwritten_handle_is_never_cleared_witness :
  In 0%nat (intervals twice_started_done)
  /\ timer (self twice_started_done) <> Some 0%nat.
Proof.
  apply (overwritten_handle_is_never_cleared styles LF 0%nat
           [CallSuccess "a"; CallError "b"; Fire 3%nat]
           (start (start (boot two_tasks)))).
  - unfold leaked. simpl. repeat split; [now left|discriminate|lia].
  - vm_compute. reflexivity.
Defined.

Lemma overwritten_handle_draws_for_ever_witness :
  exists wn,
    fires styles LF 5 0 (start (start (boot two_tasks))) = Some wn
    /\ In 0%nat (intervals wn)
    /\ updates (log wn)
       = (updates (log (start (start (boot two_tasks)))) + 5)%nat.
Proof.
  apply (overwritten_handle_draws_for_ever styles LF 0%nat 5
           (start (start (boot two_tasks)))).
  - unfold leaked. simpl. repeat split; [now left|discriminate|lia].
  - reflexivity.
  - reflexivity.
Defined.

(** ** The last completion *)

Lemma all_completed_when (m : Multispinner) :
  (forall k e,
      JsObject.get k (spinners m) = Some e ->
      state e <> states.incomplete) ->
  allCompleted m = true.
Proof.
  intros H. unfold allCompleted. apply forallb_forall. intros k Hin.
  destruct (keys_get _ _ Hin) as (e & Hg). rewrite Hg.
  apply negb_true_iff, String.eqb_neq. eauto.
Qed.

Section LastCompletion.

Variable chalk : string -> option (string -> string).
Variable EOL : string.

(** X16.  With the handle's interval the only one armed, every entry in
    a known state and the configured colors defined by chalk, completing
    the last Incomplete entry ends the loop on the next tick: when every
    other entry is already finished, [success] or [error] on the remaining
    name returns, [allCompleted()] is true at once, and the first tick of
    the restarted loop hands the final block to [this.update] and leaves
    no interval armed. *)
Theorem last_completion_ends_the_loop (name st : string) (e : spinner)
  (w : world) :
  JsObject.get name (spinners (self w)) = Some e ->
  (forall k e',
      k <> name -> JsObject.get k (spinners (self w)) = Some e' ->
      state e' <> states.incomplete) ->
  st = states.success \/ st = states.error ->
  known_states (self w) = true ->
  styled chalk (self w) = true ->
  single_timer w ->
  exists w1 w2,
    complete name st w = Normal w1
    /\ allCompleted (self w1) = true
    /\ exec chalk EOL (Fire (fresh w)) w1 = Some w2
    /\ tick chalk EOL w1 = Normal w2
    /\ intervals w2 = []
    /\ log w2
       = log w ++ Update (update (self w)) (joined_lines EOL (self w2))
           :: (if clear (self w) then [Clear logUpdate] else []).
Proof.
  intros Hg Hothers Hst Hknown Hstyled Hs.
  assert (Hk : states.hasOwnProperty st = true)
    by (apply known_state_cases; tauto).
  pose proof (complete_entry name st e w Hg Hk) as He.
  pose proof (complete_known name st w Hknown) as Hk1.
  destruct (completion_frame_helper name st w) as (Hlog & Hset & Hoth).
  destruct (complete name st w) as [w1|x w1] eqn:E;
    [|rewrite (complete_present name st e w Hg Hk) in E; discriminate].
  simpl after in He, Hk1, Hlog, Hset, Hoth.
  destruct (complete_rearms name st w w1 Hs E) as [Hi Htm].
  assert (Hall : allCompleted (self w1) = true).
  { apply all_completed_when. intros k e' Hg'.
    destruct (String.eqb k name) eqn:Ek.
    - apply String.eqb_eq in Ek. subst k. rewrite He in Hg'.
      inversion Hg'. simpl.
      destruct Hst; subst st; discriminate.
    - apply String.eqb_neq in Ek. rewrite (Hoth k Ek) in Hg'. eauto. }
  assert (Hs1 : styled chalk (self w1) = true)
    by (rewrite (styled_settings chalk _ _ Hset); exact Hstyled).
  destruct (tick_spec chalk EOL w1 Hk1 Hs1)
    as (w2 & Ht & _ & _ & _ & _ & _ & _ & _ & _ & _ & Hint & Hl2).
  rewrite Hall in Hint, Hl2. simpl in Hl2.
  exists w1, w2. split; [reflexivity|]. split; [exact Hall|].
  split; [|split; [exact Ht|split]].
  - unfold exec. rewrite Hi. simpl existsb. rewrite Nat.eqb_refl.
    simpl. now rewrite Ht.
  - rewrite Hint. apply stop_disarms. right. exists (fresh w). auto.
  - rewrite Hl2, Hlog. unfold settings in Hset. inversion Hset.
    reflexivity.
Qed.

End LastCompletion.

Lemma last_completion_ends_the_loop_witness :
  exists w1 w2,
    complete "b" states.error (after (success "a" (start (boot two_tasks))))
    = Normal w1
    /\ allCompleted (self w1) = true
    /\ exec styles LF
         (Fire (fresh (after (success "a" (start (boot two_tasks)))))) w1
       = Some w2
    /\ tick styles LF w1 = Normal w2
    /\ intervals w2 = []
    /\ log w2
       = log (after (success "a" (start (boot two_tasks))))
         ++ Update
              (update (self (after (success "a" (start (boot two_tasks))))))
              (joined_lines LF (self w2))
            :: (if clear (self (after (success "a"
                                         (start (boot two_tasks)))))
                then [Clear logUpdate] else []).
Proof.
  apply (last_completion_ends_the_loop styles LF "b" states.error
           (mkSpinner states.incomplete None "Task B")
           (after (success "a" (start (boot two_tasks))))).
  - reflexivity.
  - intros k e' Hne Hg. simpl in Hg.
    destruct (String.eqb k "a") eqn:Ea.
    + inversion Hg. discriminate.
    + destruct (String.eqb k "b") eqn:Eb; [|discriminate].
      apply String.eqb_eq in Eb. contradiction.
  - right. reflexivity.
  - reflexivity.
  - reflexivity.
  - right. exists 1%nat. split; reflexivity.
Defined.

(** ** The copy loop of the constructor *)

(** An accepted option is copied as it is. *)
Lemma assign_copies (prop : string) (v : value) (m : Multispinner) :
  option_type prop v = true ->
  property prop (assign prop (Some v) m) = Some v.
Proof.
  intros H. destruct v; simpl in H; try discriminate.
  - rewrite orb_true_iff in H. destruct H as [H|H];
      apply String.eqb_eq in H; subst prop; reflexivity.
  - apply String.eqb_eq in H. subst prop. reflexivity.
  - rewrite !orb_true_iff in H.
    destruct H as [H|[H|[H|[H|[H|[H|H]]]]]]; try discriminate;
      apply String.eqb_eq in H; subst prop; reflexivity.
  - apply String.eqb_eq in H. subst prop. reflexivity.
Qed.

(** An assignment leaves every other property alone. *)
Lemma assign_other (prop prop' : string) (v : option value)
  (m : Multispinner) :
  prop' <> prop ->
  property prop' (assign prop v m) = property prop' m.
Proof.
  intros Hne. unfold assign.
  destruct v as [[]|]; try reflexivity;
    repeat match goal with
           | |- context [if String.eqb prop ?b then _ else _] =>
               let E := fresh "E" in
               destruct (String.eqb prop b) eqn:E;
               [apply String.eqb_eq in E; subst prop;
                unfold property;
                repeat match goal with
                       | |- context [String.eqb prop' ?c] =>
                           let F := fresh "F" in
                           destruct (String.eqb prop' c) eqn:F;
                           [apply String.eqb_eq in F; subst prop';
                            try contradiction; try reflexivity|]
                       end; reflexivity|]
           end; reflexivity.
Qed.

Lemma fold_assign_property (ps : JsObject.t value) (prop : string)
  (v : value) (ks : list string) :
  JsObject.get prop ps = Some v ->
  option_type prop v = true ->
  forall m,
    property prop
      (fold_left (fun m k => assign k (JsObject.get k ps) m) ks m)
    = if existsb (String.eqb prop) ks then Some v else property prop m.
Proof.
  intros Hg Ht. induction ks as [|k ks IH]; intros m; simpl; auto.
  rewrite IH. destruct (existsb (String.eqb prop) ks); simpl.
  - now rewrite orb_true_r.
  - rewrite orb_false_r. destruct (String.eqb prop k) eqn:E.
    + apply String.eqb_eq in E. subst k. rewrite Hg.
      now apply assign_copies.
    + apply String.eqb_neq in E. now apply assign_other.
Qed.

Lemma fold_createSpinner_property {A} (f : A -> string * option value)
  (prop : string) (xs : list A) :
  forall m,
    property prop
      (fold_left (fun m x => createSpinner (fst (f x)) (snd (f x)) m) xs m)
    = property prop m.
Proof.
  induction xs as [|x xs IH]; intros m; simpl; auto.
  now rewrite IH.
Qed.

(** X20.  The constructor copies the options all or none.  When the
    options are accepted, the instance carries [opts[prop]] under every
    key of the options, and the default under every other configuration
    property; when they are rejected or absent (and construction does not
    throw), every configuration property is the default's. *)
Theorem constructor_copies_all_or_none (defaultProps : Multispinner)
  (sp opts : value) (m : Multispinner) :
  construct defaultProps sp opts = inr m ->
  (validOpts opts = true ->
   forall prop,
     property prop m
     = match JsObject.get prop (props_of opts) with
       | Some v => Some v
       | None => property prop defaultProps
       end)
  /\ (validOpts opts = false ->
      forall prop, property prop m = property prop defaultProps).
Proof.
  unfold construct.
  destruct (negb _ && negb _); [discriminate|].
  destruct (truthy opts && _); [discriminate|].
  intros H. inversion H. clear H.
  match goal with
  | |- context [set_update ?u ?M] =>
      assert (Hu : forall prop, property prop (set_update u M)
                                = property prop M) by reflexivity
  end.
  assert (Hsp : forall prop m1,
             property prop
               (if String.eqb (kindOf sp) "array"
                then fold_left (fun m s => createSpinner s None m)
                       (elements_of sp) m1
                else fold_left
                       (fun m s =>
                          createSpinner s (JsObject.get s (props_of sp)) m)
                       (JsObject.keys (props_of sp)) m1)
             = property prop m1).
  { intros prop m1. destruct (String.eqb (kindOf sp) "array").
    - apply (fold_createSpinner_property (fun s => (s, None))).
    - apply (fold_createSpinner_property
               (fun s => (s, JsObject.get s (props_of sp)))). }
  split; intros Hv prop; rewrite Hu, Hsp, Hv; [|reflexivity].
  destruct opts as [| | | | | | |ps]; simpl in Hv; try discriminate.
  simpl props_of.
  destruct (JsObject.get prop ps) as [v|] eqn:Hg.
  - rewrite forallb_forall in Hv.
    pose proof (Hv prop (get_keys _ _ _ Hg)) as Ht. rewrite Hg in Ht.
    rewrite (fold_assign_property ps prop v _ Hg Ht).
    assert (Hex : existsb (String.eqb prop) (JsObject.keys ps) = true).
    { apply existsb_eqb_in. eapply get_keys; eauto. }
    now rewrite Hex.
  - assert (Hno : forall ks m0,
               ~ In prop ks ->
               property prop
                 (fold_left (fun m k => assign k (JsObject.get k ps) m) ks m0)
               = property prop m0).
    { induction ks as [|k ks IH]; intros m0 Hnin; simpl; auto.
      rewrite IH by (intros Hin; apply Hnin; now right).
      apply assign_other. intros Heq. apply Hnin. now left. }
    apply Hno. intros Hin. apply keys_get in Hin.
    destruct Hin as (v & Hv'). congruence.
Qed.

Lemma constructor_copies_all_or_none_witness :
  (validOpts (VObject [("interval", VNumber 50)]) = true ->
   forall prop,
     property prop two_tasks
     = match JsObject.get prop
               (props_of (VObject [("interval", VNumber 50)])) with
       | Some v => Some v
       | None => property prop defaults
       end)
  /\ (validOpts (VObject [("interval", VNumber 50)]) = false ->
      forall prop, property prop two_tasks = property prop defaults).
Proof.
  apply (constructor_copies_all_or_none defaults
           (VObject [("a", VString "Task A"); ("b", VString "Task B")])
           (VObject [("interval", VNumber 50)]) two_tasks).
  reflexivity.
Defined.
